(** * Olive node graph and decoder selection: a shallow embedding

    The development follows [app/node/param.cpp] (data-type compatibility,
    the edge connection protocol, cache invalidation, value encoding) and
    [app/decoder/decoder.cpp] (decoder probing).

    Objects that the C++ code reaches through pointers live in finite maps
    indexed by their address; a function that dereferences an address which
    holds no object has no result ([None]).  Calls that leave the files
    above (node locks, Qt signals, diagnostics) are recorded in a trace. *)

From Stdlib Require Import QArith.
From stdpp Require Import base option list gmap strings fin_maps.

Set Warnings "-clear-no-such-hyp".

(** ** Data types (NodeParam::DataType) *)

Inductive DataType : Set :=
  | kNone | kInt | kFloat | kColor | kString | kBoolean | kFont | kFile
  | kTexture | kMatrix | kBlock | kFootage | kTrack | kRational
  | kVec2 | kVec3 | kVec4 | kAny.

#[global] Instance DataType_eq_dec : EqDecision DataType.
Proof. solve_decision. Defined.

(** [NodeParam::AreDataTypesCompatible(const DataType&, const DataType&)] *)
Definition AreDataTypesCompatible (output_type input_type : DataType) : bool :=
  if decide (input_type = output_type) then true
  else if decide (input_type = kNone) then false
  else if decide (input_type = kAny) then true
  else if decide (output_type = kInt ∧ input_type = kFloat) then true
  else false.

(** [NodeParam::AreDataTypesCompatible(const DataType&, const QList<DataType>&)] *)
Fixpoint AreDataTypesCompatible_list
    (output_type : DataType) (input_types : list DataType) : bool :=
  match input_types with
  | [] => false
  | t :: rest =>
      if AreDataTypesCompatible output_type t then true
      else AreDataTypesCompatible_list output_type rest
  end.

(** [NodeParam::ValueToBytes].  A [QByteArray] is its list of bytes.  The
    bytes that [ValueToBytesInternal<T>] copies out of a [QVariant] depend
    on the memory layout of [T]; the function is a parameter of the model,
    indexed by the C++ type the template is instantiated at. *)
Inductive CppType : Set :=
  | T_int | T_float | T_QColor | T_QString | T_bool | T_QMatrix4x4
  | T_rational | T_QVector2D | T_QVector3D | T_QVector4D.

Section ValueToBytes.
Variable QVariant : Type.
Variable ValueToBytesInternal : CppType → QVariant → list Byte.byte.

Definition ValueToBytes (type : DataType) (value : QVariant) : list Byte.byte :=
  match type with
  | kInt => ValueToBytesInternal T_int value
  | kFloat => ValueToBytesInternal T_float value
  | kColor => ValueToBytesInternal T_QColor value
  | kString => ValueToBytesInternal T_QString value
  | kBoolean => ValueToBytesInternal T_bool value
  | kFont => ValueToBytesInternal T_QString value
  | kFile => ValueToBytesInternal T_QString value
  | kMatrix => ValueToBytesInternal T_QMatrix4x4 value
  | kFootage => ValueToBytesInternal T_float value
  | kRational => ValueToBytesInternal T_rational value
  | kVec2 => ValueToBytesInternal T_QVector2D value
  | kVec3 => ValueToBytesInternal T_QVector3D value
  | kVec4 => ValueToBytesInternal T_QVector4D value
  (* These types have no persistent input *)
  | kNone | kTexture | kBlock | kTrack | kAny => []
  end.
End ValueToBytes.

(** ** Objects and the heap *)

(** Addresses of heap objects. *)
Abbreviation Ptr := positive.

(** [NodeEdge]: built by [NodeEdge(output, input)], read through
    [output()] and [input()], never modified afterwards. *)
Record NodeEdge : Set := mkEdge {
  edge_output : Ptr;
  edge_input : Ptr
}.

(** The members of [NodeParam] that param.cpp reads or writes, and
    [QObject::parent()], the owning [Node]. *)
Record NodeParam : Set := mkParam {
  time_ : Q;
  value_caching_ : bool;
  id_ : string;
  name_ : string;
  edges_ : list Ptr;
  parent_ : Ptr
}.

(** [NodeInput]: a parameter with its list of accepted data types. *)
Record NodeInput : Set := mkInput {
  in_param : NodeParam;
  inputs_ : list DataType
}.

(** [NodeOutput]: a parameter with the one data type it produces. *)
Record NodeOutput : Set := mkOutput {
  out_param : NodeParam;
  data_type_ : DataType
}.

(** What a call leaves behind outside the objects: the locks taken and
    released on nodes, the signals emitted by an input, and the diagnostics
    written with [qWarning()]. *)
Inductive Event : Set :=
  | Lock (node : Ptr)
  | Unlock (node : Ptr)
  | EdgeAdded (input edge : Ptr)
  | EdgeRemoved (input edge : Ptr)
  | qWarning (msg : string).

(** The heap: inputs, outputs and edges by address; for each [Node] its
    [parent()], the graph it belongs to; and the trace of events so far. *)
Record Heap : Type := mkHeap {
  inputs : gmap Ptr NodeInput;
  outputs : gmap Ptr NodeOutput;
  edge_objs : gmap Ptr NodeEdge;
  nodes : gmap Ptr Ptr;
  trace : list Event
}.

Definition set_inputs (m : gmap Ptr NodeInput) (h : Heap) : Heap :=
  mkHeap m (outputs h) (edge_objs h) (nodes h) (trace h).
Definition set_outputs (m : gmap Ptr NodeOutput) (h : Heap) : Heap :=
  mkHeap (inputs h) m (edge_objs h) (nodes h) (trace h).
Definition set_edge_objs (m : gmap Ptr NodeEdge) (h : Heap) : Heap :=
  mkHeap (inputs h) (outputs h) m (nodes h) (trace h).
Definition set_trace (t : list Event) (h : Heap) : Heap :=
  mkHeap (inputs h) (outputs h) (edge_objs h) (nodes h) t.

Definition set_time (t : Q) (p : NodeParam) : NodeParam :=
  mkParam t (value_caching_ p) (id_ p) (name_ p) (edges_ p) (parent_ p).
Definition set_edges (es : list Ptr) (p : NodeParam) : NodeParam :=
  mkParam (time_ p) (value_caching_ p) (id_ p) (name_ p) es (parent_ p).

(** ** Heap computations

    A computation takes a heap and either has no result (an address was
    dereferenced that holds no object) or returns a value and the heap it
    leaves. *)
Definition M (A : Type) : Type := Heap → option (A * Heap).

#[global] Instance M_ret : MRet M := λ A a h, Some (a, h).
#[global] Instance M_bind : MBind M := λ A B k m h,
  match m h with
  | Some (a, h') => k a h'
  | None => None
  end.

Definition get_input (p : Ptr) : M NodeInput :=
  λ h, q ← inputs h !! p; Some (q, h).
Definition get_output (p : Ptr) : M NodeOutput :=
  λ h, q ← outputs h !! p; Some (q, h).
Definition get_edge (e : Ptr) : M NodeEdge :=
  λ h, ed ← edge_objs h !! e; Some (ed, h).
(** [node->parent()] of a [Node]. *)
Definition node_parent (n : Ptr) : M Ptr :=
  λ h, g ← nodes h !! n; Some (g, h).

(** Apply a [NodeParam] member function to the object behind an input or
    output pointer. *)
Definition update_input (p : Ptr) (f : NodeParam → NodeParam) : M unit :=
  λ h, q ← inputs h !! p;
       Some (tt, set_inputs (<[p := mkInput (f (in_param q)) (inputs_ q)]> (inputs h)) h).
Definition update_output (p : Ptr) (f : NodeParam → NodeParam) : M unit :=
  λ h, q ← outputs h !! p;
       Some (tt, set_outputs (<[p := mkOutput (f (out_param q)) (data_type_ q)]> (outputs h)) h).

Definition emit (ev : Event) : M unit :=
  λ h, Some (tt, set_trace (trace h ++ [ev]) h).

(** [std::make_shared<NodeEdge>(output, input)]: a new object at an
    address that holds no edge. *)
Definition make_shared_NodeEdge (output input : Ptr) : M Ptr :=
  λ h, let edge := fresh (dom (edge_objs h)) in
       Some (edge, set_edge_objs (<[edge := mkEdge output input]> (edge_objs h)) h).

(** ** NodeParam member functions *)

(** [QVector::removeAll] and [QVector::append] on [edges_]. *)
Definition removeAll (edge : Ptr) (p : NodeParam) : NodeParam :=
  set_edges (filter (λ e, e ≠ edge) (edges_ p)) p.
Definition append (edge : Ptr) (p : NodeParam) : NodeParam :=
  set_edges (edges_ p ++ [edge]) p.

(** [NodeParam::ClearCachedValue] *)
Definition ClearCachedValue (p : NodeParam) : NodeParam :=
  set_time (-1) p.

(** [NodeParam::LastRequestedTime] *)
Definition LastRequestedTime (p : NodeParam) : Q := time_ p.

(** [NodeParam::IsConnected] *)
Definition IsConnected (p : NodeParam) : bool :=
  match edges_ p with [] => false | _ => true end.

(** Modelled from the spec: [NodeInput::can_accept_type] is defined in
    input.cpp, which is not among the sources; input.h documents that it
    checks the data type against the input's list of acceptable types, and
    the spec that an output type is accepted iff it is compatible with at
    least one member of that list. *)
Definition can_accept_type (i : NodeInput) (data_type : DataType) : bool :=
  AreDataTypesCompatible_list data_type (inputs_ i).

(** [NodeParam::DisconnectEdge(NodeEdgePtr)] *)
Definition DisconnectEdge (edge : Ptr) : M unit :=
  ed ← get_edge edge;
  let output := edge_output ed in
  let input := edge_input ed in
  po ← get_output output;
  pi ← get_input input;
  emit (Lock (parent_ (out_param po)));;
  emit (Lock (parent_ (in_param pi)));;
  update_output output (removeAll edge);;
  update_input input (removeAll edge);;
  update_input input ClearCachedValue;;
  emit (Unlock (parent_ (out_param po)));;
  emit (Unlock (parent_ (in_param pi)));;
  emit (EdgeRemoved input edge).

(** The loop of [NodeParam::DisconnectEdge] on an output and an input over
    the edges from position [i] on: the first edge whose input is [input]
    is disconnected and the loop left. *)
Fixpoint DisconnectEdge_loop (es : list Ptr) (input : Ptr) : M unit :=
  match es with
  | [] => mret tt
  | edge :: rest =>
      ed ← get_edge edge;
      if decide (edge_input ed = input) then DisconnectEdge edge
      else DisconnectEdge_loop rest input
  end.

(** [NodeParam::DisconnectEdge] on an output and an input *)
Definition DisconnectEdge_between (output input : Ptr) : M unit :=
  po ← get_output output;
  DisconnectEdge_loop (edges_ (out_param po)) input.

(** [NodeParam::DisconnectForNewOutput] *)
Definition DisconnectForNewOutput (input : Ptr) : M (option Ptr) :=
  pi ← get_input input;
  match edges_ (in_param pi) with
  | edge :: _ => DisconnectEdge edge;; mret (Some edge)
  | [] => mret None
  end.

(** The [foreach] of [ConnectEdge]: is one of the edges an edge from
    [output]? *)
Fixpoint has_edge_from (es : list Ptr) (output : Ptr) : M bool :=
  match es with
  | [] => mret false
  | existing :: rest =>
      ed ← get_edge existing;
      if decide (edge_output ed = output) then mret true
      else has_edge_from rest output
  end.

(** The two diagnostics of [ConnectEdge]. *)
Definition invalid_connection_msg : string :=
  "Tried to make an invalid Node connection".
Definition other_graph_msg : string :=
  "Tried to connect two nodes that aren't part of the same graph".

(** [NodeParam::ConnectEdge]; [None] is [nullptr]. *)
Definition ConnectEdge (output input : Ptr) : M (option Ptr) :=
  DisconnectForNewOutput input;;
  pi ← get_input input;
  duplicate ← has_edge_from (edges_ (in_param pi)) output;
  if duplicate : bool then mret None else
  po ← get_output output;
  if negb (can_accept_type pi (data_type_ po)) then
    emit (qWarning invalid_connection_msg);;
    mret None
  else
  output_graph ← node_parent (parent_ (out_param po));
  input_graph ← node_parent (parent_ (in_param pi));
  if decide (output_graph ≠ input_graph) then
    emit (qWarning other_graph_msg);;
    mret None
  else
  edge ← make_shared_NodeEdge output input;
  emit (Lock (parent_ (out_param po)));;
  emit (Lock (parent_ (in_param pi)));;
  update_output output (append edge);;
  update_input input (append edge);;
  update_input input ClearCachedValue;;
  emit (Unlock (parent_ (out_param po)));;
  emit (Unlock (parent_ (in_param pi)));;
  emit (EdgeAdded input edge);;
  mret (Some edge).

(** The heap that [DisconnectEdge edge] leaves, when [edge] is the object
    [ed] and its ends are the objects [po] and [pi]. *)
Definition disconnected
    (edge : Ptr) (ed : NodeEdge) (po : NodeOutput) (pi : NodeInput) (h : Heap) : Heap :=
  mkHeap
    (<[edge_input ed :=
         mkInput (ClearCachedValue (removeAll edge (in_param pi))) (inputs_ pi)]> (inputs h))
    (<[edge_output ed :=
         mkOutput (removeAll edge (out_param po)) (data_type_ po)]> (outputs h))
    (edge_objs h)
    (nodes h)
    (trace h ++ [Lock (parent_ (out_param po)); Lock (parent_ (in_param pi));
                 Unlock (parent_ (out_param po)); Unlock (parent_ (in_param pi));
                 EdgeRemoved (edge_input ed) edge]).


(** The heap that a successful [ConnectEdge output input] leaves once the
    new edge object sits at [edge]; [h] is the heap after the call of
    [DisconnectForNewOutput]. *)
Definition connected
    (edge output input : Ptr) (po : NodeOutput) (pi : NodeInput) (h : Heap) : Heap :=
  mkHeap
    (<[input := mkInput (ClearCachedValue (append edge (in_param pi))) (inputs_ pi)]> (inputs h))
    (<[output := mkOutput (append edge (out_param po)) (data_type_ po)]> (outputs h))
    (<[edge := mkEdge output input]> (edge_objs h))
    (nodes h)
    (trace h ++ [Lock (parent_ (out_param po)); Lock (parent_ (in_param pi));
                 Unlock (parent_ (out_param po)); Unlock (parent_ (in_param pi));
                 EdgeAdded input edge]).

(** ** Edge lists and the shape of a heap *)

(** [edges()] of the input or output at an address. *)
Definition edges_of_input (h : Heap) (i : Ptr) : list Ptr :=
  from_option (λ q, edges_ (in_param q)) [] (inputs h !! i).
Definition edges_of_output (h : Heap) (o : Ptr) : list Ptr :=
  from_option (λ q, edges_ (out_param q)) [] (outputs h !! o).

(** An edge is in the list of its output exactly when it is in the list
    of its input. *)
Definition two_sided (h : Heap) : Prop :=
  ∀ e ed, edge_objs h !! e = Some ed →
    e ∈ edges_of_output h (edge_output ed) ↔ e ∈ edges_of_input h (edge_input ed).

(** Well-formed heaps: the edges in a parameter's list are edge objects
    that have the parameter as their end on that side, the ends of an edge
    object are objects, edges are two-sided, and an input has at most one
    edge (no input of this code base takes several). *)
Record wf (h : Heap) : Prop := mk_wf {
  wf_in_edges : ∀ i e, e ∈ edges_of_input h i →
    ∃ ed, edge_objs h !! e = Some ed ∧ edge_input ed = i;
  wf_out_edges : ∀ o e, e ∈ edges_of_output h o →
    ∃ ed, edge_objs h !! e = Some ed ∧ edge_output ed = o;
  wf_edge_ends : ∀ e ed, edge_objs h !! e = Some ed →
    is_Some (outputs h !! edge_output ed) ∧ is_Some (inputs h !! edge_input ed);
  wf_two_sided : two_sided h;
  wf_single : ∀ i, length (edges_of_input h i) ≤ 1
}.

(** A heap of parameters as their constructors leave them: no edge has
    been made yet. *)
Definition unconnected (h : Heap) : Prop :=
  edge_objs h = ∅ ∧
  map_Forall (λ _ q, edges_ (in_param q) = []) (inputs h) ∧
  map_Forall (λ _ q, edges_ (out_param q) = []) (outputs h).

(** The editing operations on edges, and the heaps a program reaches with
    them from an unconnected heap. *)
Inductive Op : Set :=
  | OpConnectEdge (output input : Ptr)
  | OpDisconnectEdge (edge : Ptr)
  | OpDisconnectEdge_between (output input : Ptr).

Definition run_op (op : Op) : M unit :=
  match op with
  | OpConnectEdge output input => ConnectEdge output input;; mret tt
  | OpDisconnectEdge edge => DisconnectEdge edge
  | OpDisconnectEdge_between output input => DisconnectEdge_between output input
  end.

Fixpoint run_ops (ops : list Op) : M unit :=
  match ops with
  | [] => mret tt
  | op :: rest => run_op op;; run_ops rest
  end.

(** The request times [get_value()] receives: the comment in
    [ClearCachedValue] records that it never receives a negative number. *)
Definition valid_request_time (t : Q) : Prop := (0 <= t)%Q.

(** ** A small graph to run the protocol on

    Nodes 1 and 2 of one graph and node 3 of another; on node 1 the
    outputs 10 (Float), 11 (String) and 13 (Int), on node 3 the output 12
    (Float); on node 2 the inputs 20 and 21, which accept Int and Float. *)
Definition demo_param (node : Ptr) : NodeParam :=
  mkParam (-1) true "p" EmptyString [] node.

Definition demo_heap : Heap :=
  mkHeap
    (<[20%positive := mkInput (demo_param 2) [kInt; kFloat]]>
       (<[21%positive := mkInput (demo_param 2) [kInt; kFloat]]> ∅))
    (<[10%positive := mkOutput (demo_param 1) kFloat]>
       (<[11%positive := mkOutput (demo_param 1) kString]>
          (<[12%positive := mkOutput (demo_param 3) kFloat]>
             (<[13%positive := mkOutput (demo_param 1) kInt]> ∅))))
    ∅
    (<[1%positive := 100%positive]>
       (<[2%positive := 100%positive]>
          (<[3%positive := 200%positive]> ∅)))
    [].

(** The heap after [ConnectEdge 10 20]. *)
Definition demo_heap_connected : Heap :=
  from_option snd demo_heap (ConnectEdge 10 20 demo_heap).

(** A sequence of edits on the graph, and the heap it leaves. *)
Definition demo_ops : list Op :=
  [OpConnectEdge 10 20; OpConnectEdge 10 21; OpConnectEdge 11 20;
   OpDisconnectEdge 2; OpConnectEdge 10 21; OpDisconnectEdge_between 10 21;
   OpConnectEdge 12 21; OpConnectEdge 10 20].

Definition demo_heap_edited : Heap :=
  from_option snd demo_heap (run_ops demo_ops demo_heap).

(** ** Footage and decoder probing (decoder.cpp) *)

(** [Footage::Status] *)
Inductive Status : Set := kUnprobed | kUnindexed | kReady | kInvalid.

(** The members of [Footage]: the file name, the time stamp (a point in
    time), the addresses of the stream objects, the status and the
    identifier of the attached decoder. *)
Record Footage : Set := mkFootage {
  filename_ : string;
  timestamp_ : Z;
  streams_ : list Ptr;
  status_ : Status;
  decoder_ : string
}.

(** Modelled from the spec: [Footage::set_status] and
    [Footage::set_decoder] are defined in footage.cpp, which is not among
    the sources; footage.h documents them as setting the current status and
    attaching the decoder identifier, and the spec has the identifier
    recorded on the media record. *)
Definition set_status (status : Status) (f : Footage) : Footage :=
  mkFootage (filename_ f) (timestamp_ f) (streams_ f) status (decoder_ f).
Definition set_decoder (id : string) (f : Footage) : Footage :=
  mkFootage (filename_ f) (timestamp_ f) (streams_ f) (status_ f) id.

(** [QString::isEmpty] *)
Definition isEmpty (s : string) : bool :=
  match s with EmptyString => true | String _ _ => false end.

(** A decoder as [ProbeMedia] uses it: its [id()] and its [Probe], which
    answers whether it can read the file and may fill in the footage. *)
Record Decoder : Set := mkDecoder {
  decoder_id : string;
  Probe : Footage → bool * Footage
}.

Section ProbeMedia.
(** [QFileInfo::exists], the file system as the call finds it. *)
Variable QFileInfo_exists : string → bool.
(** [Footage::Clear], defined in footage.cpp. *)
Variable Clear : Footage → Footage.
(** The two decoder classes, defined under decoder/oiio and
    decoder/ffmpeg. *)
Variable OIIODecoder : Decoder.
Variable FFmpegDecoder : Decoder.

(** [ReceiveListOfAllDecoders]: the order is the priority when probing. *)
Definition ReceiveListOfAllDecoders : list Decoder :=
  [OIIODecoder; FFmpegDecoder].

(** The loop of [ProbeMedia] over the decoders still to try, and the
    statements after it for when none is left. *)
Fixpoint ProbeMedia_loop (decoder_list : list Decoder) (f : Footage) : bool * Footage :=
  match decoder_list with
  | decoder :: rest =>
      let '(accepted, f') := Probe decoder f in
      if accepted then (true, set_decoder (decoder_id decoder) (set_status kReady f'))
      else ProbeMedia_loop rest f'
  | [] => (false, set_decoder EmptyString (set_status kInvalid f))
  end.

(** [Decoder::ProbeMedia] *)
Definition ProbeMedia (f : Footage) : bool * Footage :=
  if isEmpty (filename_ f) then (false, f)
  else if negb (QFileInfo_exists (filename_ f)) then (false, f)
  else ProbeMedia_loop ReceiveListOfAllDecoders (Clear f).

(** [Decoder::CreateFromID] *)
Definition CreateFromID (id : string) : option Decoder :=
  if isEmpty id then None
  else List.find (λ d, bool_decide (decoder_id d = id)) ReceiveListOfAllDecoders.

(** The footage after every decoder of a list has rejected it, if they
    all do. *)
Fixpoint all_reject (decoder_list : list Decoder) (f : Footage) : option Footage :=
  match decoder_list with
  | decoder :: rest =>
      let '(accepted, f') := Probe decoder f in
      if accepted then None else all_reject rest f'
  | [] => Some f
  end.
End ProbeMedia.

(** Two decoders to run [ProbeMedia] on: one for a still image, one for
    anything that is not a text file. *)
Definition demo_oiio : Decoder :=
  mkDecoder "oiio" (λ f, (bool_decide (filename_ f = "still.png"%string), f)).
Definition demo_ffmpeg : Decoder :=
  mkDecoder "ffmpeg" (λ f, (negb (bool_decide (filename_ f = "notes.txt"%string)), f)).
Definition demo_exists (name : string) : bool :=
  negb (bool_decide (name = "missing.mov"%string)).
Definition demo_Clear (f : Footage) : Footage :=
  mkFootage (filename_ f) (timestamp_ f) [] kUnprobed (decoder_ f).
Definition demo_footage (name : string) : Footage :=
  mkFootage name 0 [5%positive] kReady "old".

(** An edge of an input is touched when it is added by [ConnectEdge] or
    removed by [DisconnectEdge]: [edge_mutation input h h'] says that such
    a call took the heap from [h] to [h']. *)
Inductive edge_mutation (input : Ptr) (h h' : Heap) : Prop :=
  | edge_added (output edge : Ptr) :
      ConnectEdge output input h = Some (Some edge, h') →
      edge_mutation input h h'
  | edge_removed (edge : Ptr) (ed : NodeEdge) :
      edge_objs h !! edge = Some ed →
      edge_input ed = input →
      DisconnectEdge edge h = Some (tt, h') →
      edge_mutation input h h'.

(** The heap after [ConnectEdge 11 20] on the connected heap: a String
    output offered to an input that accepts Int and Float. *)
Definition demo_heap_rejected : Heap :=
  from_option snd demo_heap (ConnectEdge 11 20 demo_heap_connected).

(** The heap after a second [ConnectEdge 10 20] on the connected heap. *)
Definition demo_heap_reconnected : Heap :=
  from_option snd demo_heap (ConnectEdge 10 20 demo_heap_connected).

(** ** More of param.cpp *)

(** [NodeParam::Type], the result of the virtual [type()]. *)
Inductive ParamType : Set := kInput | kOutput.

#[global] Instance ParamType_eq_dec : EqDecision ParamType.
Proof. solve_decision. Defined.

(** A pointer to a [NodeParam]: an address together with the class of the object
    behind it, which decides the map the object lives in. *)
Inductive ParamPtr : Set :=
  | InputPtr (p : Ptr)
  | OutputPtr (p : Ptr).

Definition address (a : ParamPtr) : Ptr :=
  match a with InputPtr p | OutputPtr p => p end.

(** [a->type()]: the object is read, so it has to be there. *)
Definition type (a : ParamPtr) : M ParamType :=
  match a with
  | InputPtr p => get_input p;; mret kInput
  | OutputPtr p => get_output p;; mret kOutput
  end.

(** [NodeParam::AreDataTypesCompatible] on two parameters *)
Definition AreDataTypesCompatible_params (a b : ParamPtr) : M bool :=
  ta ← type a;
  tb ← type b;
  if decide (ta = tb) then mret false else
  let input := if decide (ta = kInput) then a else b in
  let output := if decide (ta = kInput) then b else a in
  po ← get_output (address output);
  pi ← get_input (address input);
  mret (AreDataTypesCompatible_list (data_type_ po) (inputs_ pi)).

Section Names.
(** [tr], the translation of a source string for the current locale. *)
Variable tr : string → string.

(** [NodeParam::GetDefaultDataTypeName] *)
Definition GetDefaultDataTypeName (type : DataType) : string :=
  match type with
  | kNone => tr "None"
  | kInt => tr "Integer"
  | kFloat => tr "Float"
  | kColor => tr "Color"
  | kString => tr "String"
  | kBoolean => tr "Boolean"
  | kFont => tr "Font"
  | kFile => tr "File"
  | kTexture => tr "Texture"
  | kMatrix => tr "Matrix"
  | kBlock => tr "Block"
  | kFootage => tr "Footage"
  | kTrack => tr "Track"
  | kRational => tr "Rational"
  | kVec2 => tr "Vector2D"
  | kVec3 => tr "Vector3D"
  | kVec4 => tr "Vector4D"
  | kAny => tr "Any"
  end.

(** [NodeParam::name]; [data_type] is the result of the virtual
    [data_type()] of the parameter. *)
Definition name (p : NodeParam) (data_type : DataType) : string :=
  if isEmpty (name_ p) then GetDefaultDataTypeName data_type else name_ p.
End Names.

(** [NodeParam::set_name] *)
Definition set_name (name : string) (p : NodeParam) : NodeParam :=
  mkParam (time_ p) (value_caching_ p) (id_ p) name (edges_ p) (parent_ p).

(** [NodeParam::ValueCachingEnabled] and [NodeParam::SetValueCachingEnabled] *)
Definition ValueCachingEnabled (p : NodeParam) : bool := value_caching_ p.
Definition SetValueCachingEnabled (enabled : bool) (p : NodeParam) : NodeParam :=
  mkParam (time_ p) enabled (id_ p) (name_ p) (edges_ p) (parent_ p).

(** ** Heaps a program reaches, and what no edit changes *)

(** The heaps reached from an unconnected heap by editing operations. *)
Definition reached (h : Heap) : Prop :=
  ∃ h0 ops, unconnected h0 ∧ run_ops ops h0 = Some (tt, h).

(** The part of a parameter that is set when its node is built. *)
Definition fixed_part (p : NodeParam) : bool * string * string * Ptr :=
  (value_caching_ p, id_ p, name_ p, parent_ p).

(** [unchanged_but_edges h h']: [h'] has the parameters of [h] with
    their identifiers, names, owners, data types and accepted types, the
    same nodes, and every edge object of [h]. *)
Definition unchanged_but_edges (h h' : Heap) : Prop :=
  ((λ q, (fixed_part (in_param q), inputs_ q)) <$> inputs h') =
    ((λ q, (fixed_part (in_param q), inputs_ q)) <$> inputs h) ∧
  ((λ q, (fixed_part (out_param q), data_type_ q)) <$> outputs h') =
    ((λ q, (fixed_part (out_param q), data_type_ q)) <$> outputs h) ∧
  nodes h' = nodes h ∧
  edge_objs h ⊆ edge_objs h'.

(** An edge object joins an output and an input of one graph, with the
    output's type accepted by the input. *)
Definition edge_valid (h : Heap) (ed : NodeEdge) : Prop :=
  ∃ po pi graph,
    outputs h !! edge_output ed = Some po ∧
    inputs h !! edge_input ed = Some pi ∧
    can_accept_type pi (data_type_ po) = true ∧
    nodes h !! parent_ (out_param po) = Some graph ∧
    nodes h !! parent_ (in_param pi) = Some graph.

#[global] Instance Event_eq_dec : EqDecision Event.
Proof. solve_decision. Defined.

(** How often an event is in a trace. *)
Definition occurrences (ev : Event) (t : list Event) : nat :=
  length (filter (λ x, x = ev) t).

(** The edge-added signals among events. *)
Definition is_EdgeAdded (ev : Event) : bool :=
  match ev with EdgeAdded _ _ => true | _ => false end.
(** ** Running computations *)

Lemma bind_run {A B} (m : M A) (k : A → M B) h a h' :
  m h = Some (a, h') → (m ≫= k) h = k a h'.
Proof. intros Hm. unfold mbind, M_bind. by rewrite Hm. Qed.

Lemma bind_inv {A B} (m : M A) (k : A → M B) h b h'' :
  (m ≫= k) h = Some (b, h'') →
  ∃ a h', m h = Some (a, h') ∧ k a h' = Some (b, h'').
Proof.
  unfold mbind, M_bind. destruct (m h) as [[a h']|]; [|done].
  intros Hk. by exists a, h'.
Qed.

Lemma get_input_run h p q : inputs h !! p = Some q → get_input p h = Some (q, h).
Proof. intros Hq. unfold get_input. by rewrite Hq. Qed.

Lemma get_output_run h p q : outputs h !! p = Some q → get_output p h = Some (q, h).
Proof. intros Hq. unfold get_output. by rewrite Hq. Qed.

Lemma get_edge_run h e ed : edge_objs h !! e = Some ed → get_edge e h = Some (ed, h).
Proof. intros Hed. unfold get_edge. by rewrite Hed. Qed.

Lemma get_input_inv h p q h' :
  get_input p h = Some (q, h') → inputs h !! p = Some q ∧ h' = h.
Proof. unfold get_input. destruct (inputs h !! p); naive_solver. Qed.

Lemma get_output_inv h p q h' :
  get_output p h = Some (q, h') → outputs h !! p = Some q ∧ h' = h.
Proof. unfold get_output. destruct (outputs h !! p); naive_solver. Qed.

Lemma get_edge_inv h e ed h' :
  get_edge e h = Some (ed, h') → edge_objs h !! e = Some ed ∧ h' = h.
Proof. unfold get_edge. destruct (edge_objs h !! e); naive_solver. Qed.

Lemma DisconnectEdge_run h edge ed po pi :
  edge_objs h !! edge = Some ed →
  outputs h !! edge_output ed = Some po →
  inputs h !! edge_input ed = Some pi →
  DisconnectEdge edge h = Some (tt, disconnected edge ed po pi h).
Proof.
  intros Hed Hpo Hpi. unfold DisconnectEdge.
  rewrite (bind_run _ _ _ _ _ (get_edge_run _ _ _ Hed)). cbn zeta.
  rewrite (bind_run _ _ _ _ _ (get_output_run _ _ _ Hpo)).
  rewrite (bind_run _ _ _ _ _ (get_input_run _ _ _ Hpi)).
  unfold mbind, M_bind, emit, update_output, update_input; cbn.
  rewrite Hpo; cbn. rewrite Hpi; cbn. rewrite lookup_insert_eq; cbn.
  unfold disconnected, set_inputs, set_trace; cbn.
  rewrite insert_insert_eq. rewrite <- !(assoc_L (++)). done.
Qed.

Lemma DisconnectEdge_inv h edge u h' :
  DisconnectEdge edge h = Some (u, h') →
  ∃ ed po pi,
    edge_objs h !! edge = Some ed ∧
    outputs h !! edge_output ed = Some po ∧
    inputs h !! edge_input ed = Some pi ∧
    h' = disconnected edge ed po pi h.
Proof.
  intros Hrun. pose proof Hrun as Hrun'. unfold DisconnectEdge in Hrun'.
  apply bind_inv in Hrun' as (ed & h1 & [Hed ->]%get_edge_inv & Hrun').
  cbn zeta in Hrun'.
  apply bind_inv in Hrun' as (po & h1 & [Hpo ->]%get_output_inv & Hrun').
  apply bind_inv in Hrun' as (pi & h1 & [Hpi ->]%get_input_inv & _).
  exists ed, po, pi. repeat split; try done.
  rewrite (DisconnectEdge_run _ _ _ _ _ Hed Hpo Hpi) in Hrun. congruence.
Qed.

(** ** Membership in edge lists after a disconnection or a connection *)

Lemma elem_of_edges_disconnected_in h edge ed po pi i e :
  inputs h !! edge_input ed = Some pi →
  e ∈ edges_of_input (disconnected edge ed po pi h) i ↔
  e ∈ edges_of_input h i ∧ ¬ (i = edge_input ed ∧ e = edge).
Proof.
  intros Hpi. unfold edges_of_input, disconnected; cbn.
  destruct (decide (i = edge_input ed)) as [->|Hne].
  - rewrite lookup_insert_eq, Hpi; cbn. rewrite list_elem_of_filter. naive_solver.
  - rewrite lookup_insert_ne by done. naive_solver.
Qed.

Lemma elem_of_edges_disconnected_out h edge ed po pi o e :
  outputs h !! edge_output ed = Some po →
  e ∈ edges_of_output (disconnected edge ed po pi h) o ↔
  e ∈ edges_of_output h o ∧ ¬ (o = edge_output ed ∧ e = edge).
Proof.
  intros Hpo. unfold edges_of_output, disconnected; cbn.
  destruct (decide (o = edge_output ed)) as [->|Hne].
  - rewrite lookup_insert_eq, Hpo; cbn. rewrite list_elem_of_filter. naive_solver.
  - rewrite lookup_insert_ne by done. naive_solver.
Qed.

Lemma elem_of_edges_connected_in h edge output input po pi i e :
  inputs h !! input = Some pi →
  e ∈ edges_of_input (connected edge output input po pi h) i ↔
  e ∈ edges_of_input h i ∨ (i = input ∧ e = edge).
Proof.
  intros Hpi. unfold edges_of_input, connected; cbn.
  destruct (decide (i = input)) as [->|Hne].
  - rewrite lookup_insert_eq, Hpi; cbn. rewrite elem_of_app, list_elem_of_singleton.
    naive_solver.
  - rewrite lookup_insert_ne by done. naive_solver.
Qed.

Lemma elem_of_edges_connected_out h edge output input po pi o e :
  outputs h !! output = Some po →
  e ∈ edges_of_output (connected edge output input po pi h) o ↔
  e ∈ edges_of_output h o ∨ (o = output ∧ e = edge).
Proof.
  intros Hpo. unfold edges_of_output, connected; cbn.
  destruct (decide (o = output)) as [->|Hne].
  - rewrite lookup_insert_eq, Hpo; cbn. rewrite elem_of_app, list_elem_of_singleton.
    naive_solver.
  - rewrite lookup_insert_ne by done. naive_solver.
Qed.

(** ** Well-formedness is kept *)

Lemma wf_set_trace h t : wf h → wf (set_trace t h).
Proof. intros [H1 H2 H3 H4 H5]. by split. Qed.

Lemma wf_disconnected h edge ed po pi :
  wf h →
  edge_objs h !! edge = Some ed →
  outputs h !! edge_output ed = Some po →
  inputs h !! edge_input ed = Some pi →
  wf (disconnected edge ed po pi h).
Proof.
  intros [Hin Hout Hends Hts Hone] Hed Hpo Hpi. split.
  - intros i e [He _]%elem_of_edges_disconnected_in; [|done]. by apply Hin.
  - intros o e [He _]%elem_of_edges_disconnected_out; [|done]. by apply Hout.
  - intros e ed' Hed'. cbn in Hed'. destruct (Hends e ed' Hed') as [Ho Hi].
    cbn. split.
    + rewrite lookup_insert_is_Some. destruct (decide (edge_output ed = edge_output ed')); auto.
    + rewrite lookup_insert_is_Some. destruct (decide (edge_input ed = edge_input ed')); auto.
  - intros e ed' Hed'. cbn in Hed'.
    rewrite elem_of_edges_disconnected_out, elem_of_edges_disconnected_in by done.
    pose proof (Hts e ed' Hed') as Hiff.
    split; intros [He Hn]; (split; [by apply Hiff|]); intros [_ ->];
      assert (ed' = ed) as -> by congruence; naive_solver.
  - intros i. etrans; [|apply (Hone i)].
    unfold edges_of_input, disconnected; cbn.
    destruct (decide (i = edge_input ed)) as [->|Hne].
    + rewrite lookup_insert_eq, Hpi; cbn. apply length_filter.
    + by rewrite lookup_insert_ne.
Qed.

Lemma wf_connected h edge output input po pi :
  wf h →
  edge_objs h !! edge = None →
  outputs h !! output = Some po →
  inputs h !! input = Some pi →
  edges_ (in_param pi) = [] →
  wf (connected edge output input po pi h).
Proof.
  intros [Hin Hout Hends Hts Hone] Hfresh Hpo Hpi Hnil. split.
  - intros i e [He|[-> ->]]%elem_of_edges_connected_in; [| |done].
    + destruct (Hin i e He) as (ed & Hed & Hi). exists ed. split; [|done].
      cbn. rewrite lookup_insert_ne; [done|congruence].
    + exists (mkEdge output input). cbn. by rewrite lookup_insert_eq.
  - intros o e [He|[-> ->]]%elem_of_edges_connected_out; [| |done].
    + destruct (Hout o e He) as (ed & Hed & Ho). exists ed. split; [|done].
      cbn. rewrite lookup_insert_ne; [done|congruence].
    + exists (mkEdge output input). cbn. by rewrite lookup_insert_eq.
  - intros e ed Hed. cbn in Hed. cbn. rewrite !lookup_insert_is_Some.
    destruct (decide (edge = e)) as [->|Hne].
    + rewrite lookup_insert_eq in Hed. injection Hed as <-. cbn. auto.
    + rewrite lookup_insert_ne in Hed by done. destruct (Hends e ed Hed) as [Ho Hi].
      split.
      * destruct (decide (output = edge_output ed)); auto.
      * destruct (decide (input = edge_input ed)); auto.
  - intros e ed Hed. cbn in Hed.
    rewrite elem_of_edges_connected_out, elem_of_edges_connected_in by done.
    destruct (decide (edge = e)) as [->|Hne].
    + rewrite lookup_insert_eq in Hed. injection Hed as <-. cbn. naive_solver.
    + rewrite lookup_insert_ne in Hed by done. pose proof (Hts e ed Hed). naive_solver.
  - intros i. unfold edges_of_input, connected; cbn.
    destruct (decide (i = input)) as [->|Hne].
    + rewrite lookup_insert_eq; cbn. by rewrite Hnil.
    + rewrite lookup_insert_ne by done. apply (Hone i).
Qed.

Lemma wf_unconnected h : unconnected h → wf h.
Proof.
  intros (Hobjs & Hin & Hout). split.
  - intros i e. unfold edges_of_input.
    destruct (inputs h !! i) as [q|] eqn:Hq; cbn; [|by intros ?%elem_of_nil].
    rewrite (Hin i q Hq). by intros ?%elem_of_nil.
  - intros o e. unfold edges_of_output.
    destruct (outputs h !! o) as [q|] eqn:Hq; cbn; [|by intros ?%elem_of_nil].
    rewrite (Hout o q Hq). by intros ?%elem_of_nil.
  - intros e ed. by rewrite Hobjs, lookup_empty.
  - intros e ed. by rewrite Hobjs, lookup_empty.
  - intros i. unfold edges_of_input.
    destruct (inputs h !! i) as [q|] eqn:Hq; cbn; [|lia].
    rewrite (Hin i q Hq). cbn. lia.
Qed.

(** ** DisconnectForNewOutput *)

Lemma DisconnectForNewOutput_inv h input r h1 :
  DisconnectForNewOutput input h = Some (r, h1) →
  ∃ pi, inputs h !! input = Some pi ∧
    ((edges_ (in_param pi) = [] ∧ r = None ∧ h1 = h) ∨
     (∃ edge rest ed po pi',
        edges_ (in_param pi) = edge :: rest ∧ r = Some edge ∧
        edge_objs h !! edge = Some ed ∧
        outputs h !! edge_output ed = Some po ∧
        inputs h !! edge_input ed = Some pi' ∧
        h1 = disconnected edge ed po pi' h)).
Proof.
  unfold DisconnectForNewOutput. intros Hrun.
  apply bind_inv in Hrun as (pi & h0 & [Hpi ->]%get_input_inv & Hrun).
  exists pi. split; [done|].
  destruct (edges_ (in_param pi)) as [|edge rest] eqn:Hes.
  - left. unfold mret, M_ret in Hrun. naive_solver.
  - right. apply bind_inv in Hrun as ([] & h2 & Hdis & Hret).
    apply DisconnectEdge_inv in Hdis as (ed & po & pi' & Hed & Hpo & Hpi' & ->).
    unfold mret, M_ret in Hret. exists edge, rest, ed, po, pi'. naive_solver.
Qed.

Lemma DisconnectForNewOutput_run_nil h input pi :
  inputs h !! input = Some pi →
  edges_ (in_param pi) = [] →
  DisconnectForNewOutput input h = Some (None, h).
Proof.
  intros Hpi Hes. unfold DisconnectForNewOutput.
  rewrite (bind_run _ _ _ _ _ (get_input_run _ _ _ Hpi)). by rewrite Hes.
Qed.

Lemma DisconnectForNewOutput_run_cons h input pi edge rest ed po :
  inputs h !! input = Some pi →
  edges_ (in_param pi) = edge :: rest →
  edge_objs h !! edge = Some ed →
  edge_input ed = input →
  outputs h !! edge_output ed = Some po →
  DisconnectForNewOutput input h = Some (Some edge, disconnected edge ed po pi h).
Proof.
  intros Hpi Hes Hed Hin Hpo. unfold DisconnectForNewOutput.
  rewrite (bind_run _ _ _ _ _ (get_input_run _ _ _ Hpi)). rewrite Hes.
  rewrite <- Hin in Hpi.
  by rewrite (bind_run _ _ _ _ _ (DisconnectEdge_run _ _ _ _ _ Hed Hpo Hpi)).
Qed.

(** In a well-formed heap the input has no edge or exactly one, its own;
    [DisconnectForNewOutput] returns in both cases. *)
Lemma DisconnectForNewOutput_wf h input pi :
  wf h →
  inputs h !! input = Some pi →
  (edges_ (in_param pi) = [] ∧
   DisconnectForNewOutput input h = Some (None, h)) ∨
  (∃ edge ed po,
     edges_ (in_param pi) = [edge] ∧
     edge_objs h !! edge = Some ed ∧ edge_input ed = input ∧
     outputs h !! edge_output ed = Some po ∧
     DisconnectForNewOutput input h = Some (Some edge, disconnected edge ed po pi h)).
Proof.
  intros Hwf Hpi.
  destruct (edges_ (in_param pi)) as [|edge rest] eqn:Hes.
  - left. split; [done|]. by apply DisconnectForNewOutput_run_nil with pi.
  - right.
    assert (edges_of_input h input = edge :: rest) as Hof.
    { unfold edges_of_input. by rewrite Hpi. }
    pose proof (wf_single h Hwf input) as Hlen. rewrite Hof in Hlen.
    destruct rest as [|? ?]; [|cbn in Hlen; lia].
    destruct (wf_in_edges h Hwf input edge) as (ed & Hed & Hin).
    { rewrite Hof. apply list_elem_of_here. }
    destruct (wf_edge_ends h Hwf edge ed Hed) as [[po Hpo] _].
    exists edge, ed, po. repeat split; try done.
    by apply DisconnectForNewOutput_run_cons with [].
Qed.

Lemma DisconnectForNewOutput_keeps_wf h input r h1 :
  wf h → DisconnectForNewOutput input h = Some (r, h1) → wf h1.
Proof.
  intros Hwf (pi & Hpi & [(_ & _ & ->)|Hcons])%DisconnectForNewOutput_inv; [done|].
  destruct Hcons as (edge & rest & ed & po & pi' & _ & _ & Hed & Hpo & Hpi' & ->).
  by apply wf_disconnected.
Qed.

(** ** The duplicate scan *)

Lemma has_edge_from_inv es output h b h' :
  has_edge_from es output h = Some (b, h') → h' = h.
Proof.
  induction es as [|e es IH]; cbn.
  - unfold mret, M_ret. congruence.
  - intros (ed & h0 & [_ ->]%get_edge_inv & Hrest)%bind_inv.
    destruct (decide (edge_output ed = output)); [|by apply IH].
    unfold mret, M_ret in Hrest. congruence.
Qed.

Lemma has_edge_from_run_false es output h :
  (∀ e, e ∈ es → ∃ ed, edge_objs h !! e = Some ed ∧ edge_output ed ≠ output) →
  has_edge_from es output h = Some (false, h).
Proof.
  induction es as [|e es IH]; intros Hes; cbn; [done|].
  destruct (Hes e) as (ed & Hed & Hne); [apply list_elem_of_here|].
  rewrite (bind_run _ _ _ _ _ (get_edge_run _ _ _ Hed)).
  rewrite decide_False by done. apply IH. intros e' He'. apply Hes.
  by apply list_elem_of_further.
Qed.

(** ** ConnectEdge *)

(** What [ConnectEdge] does once [DisconnectForNewOutput] has returned
    and the scan has found no edge from [output]. *)
Lemma ConnectEdge_run h output input r1 h1 pi po :
  DisconnectForNewOutput input h = Some (r1, h1) →
  inputs h1 !! input = Some pi →
  has_edge_from (edges_ (in_param pi)) output h1 = Some (false, h1) →
  outputs h1 !! output = Some po →
  ConnectEdge output input h =
    if can_accept_type pi (data_type_ po) then
      match nodes h1 !! parent_ (out_param po), nodes h1 !! parent_ (in_param pi) with
      | Some output_graph, Some input_graph =>
          if decide (output_graph = input_graph) then
            let edge := fresh (dom (edge_objs h1)) in
            Some (Some edge, connected edge output input po pi h1)
          else Some (None, set_trace (trace h1 ++ [qWarning other_graph_msg]) h1)
      | _, _ => None
      end
    else Some (None, set_trace (trace h1 ++ [qWarning invalid_connection_msg]) h1).
Proof.
  intros Hdfno Hpi Hscan Hpo. unfold ConnectEdge.
  rewrite (bind_run _ _ _ _ _ Hdfno).
  rewrite (bind_run _ _ _ _ _ (get_input_run _ _ _ Hpi)).
  rewrite (bind_run _ _ _ _ _ Hscan).
  rewrite (bind_run _ _ _ _ _ (get_output_run _ _ _ Hpo)).
  destruct (can_accept_type pi (data_type_ po)); cbn; [|done].
  unfold mbind at 1, M_bind at 1, node_parent at 1.
  destruct (nodes h1 !! parent_ (out_param po)) as [og|]; cbn; [|done].
  unfold mbind at 1, M_bind at 1, node_parent at 1.
  destruct (nodes h1 !! parent_ (in_param pi)) as [ig|]; cbn; [|done].
  destruct (decide (og = ig)) as [->|Hne].
  - rewrite decide_False by (intros Hn; by apply Hn).
    unfold mbind, M_bind, make_shared_NodeEdge, emit, update_output, update_input,
      mret, M_ret; cbn.
    rewrite Hpo; cbn. rewrite Hpi; cbn. rewrite lookup_insert_eq; cbn.
    unfold connected, set_inputs; cbn.
    rewrite insert_insert_eq. by rewrite <- !(assoc_L (++)).
  - by rewrite decide_True by done.
Qed.

Lemma set_trace_id h : set_trace (trace h) h = h.
Proof. by destruct h. Qed.

(** Every return of [ConnectEdge] is one of: no edge, and the heap of
    [DisconnectForNewOutput] with at most a diagnostic added to the trace;
    or a new edge, appended to both lists. *)
Lemma ConnectEdge_inv h output input r h' :
  ConnectEdge output input h = Some (r, h') →
  ∃ r1 h1 pi,
    DisconnectForNewOutput input h = Some (r1, h1) ∧
    inputs h1 !! input = Some pi ∧
    ((r = None ∧ ∃ t, h' = set_trace t h1) ∨
     (∃ po, outputs h1 !! output = Some po ∧
        r = Some (fresh (dom (edge_objs h1))) ∧
        h' = connected (fresh (dom (edge_objs h1))) output input po pi h1)).
Proof.
  intros Hrun. pose proof Hrun as Hrun'. unfold ConnectEdge in Hrun'.
  apply bind_inv in Hrun' as (r1 & h1 & Hdfno & Hrun').
  apply bind_inv in Hrun' as (pi & h2 & [Hpi ->]%get_input_inv & Hrun').
  apply bind_inv in Hrun' as (dup & h2 & Hscan & Hrun').
  pose proof (has_edge_from_inv _ _ _ _ _ Hscan) as ->.
  exists r1, h1, pi. do 2 (split; [done|]).
  destruct dup.
  { left. unfold mret, M_ret in Hrun'. injection Hrun' as <- <-.
    split; [done|]. exists (trace h1). by rewrite set_trace_id. }
  apply bind_inv in Hrun' as (po & h2 & [Hpo ->]%get_output_inv & _).
  rewrite (ConnectEdge_run _ _ _ _ _ _ _ Hdfno Hpi Hscan Hpo) in Hrun.
  destruct (can_accept_type pi (data_type_ po)).
  - destruct (nodes h1 !! parent_ (out_param po)) as [og|]; [|done].
    destruct (nodes h1 !! parent_ (in_param pi)) as [ig|]; [|done].
    destruct (decide (og = ig)).
    + right. exists po. cbn zeta in Hrun. injection Hrun as <- <-. done.
    + left. injection Hrun as <- <-. eauto.
  - left. injection Hrun as <- <-. eauto.
Qed.

Lemma fresh_edge_None h : edge_objs h !! fresh (dom (edge_objs h)) = None.
Proof. apply not_elem_of_dom. apply is_fresh. Qed.

(** After [DisconnectForNewOutput] on a well-formed heap the input has no
    edge left. *)
Lemma DisconnectForNewOutput_leaves_none h input r h1 pi1 :
  wf h →
  DisconnectForNewOutput input h = Some (r, h1) →
  inputs h1 !! input = Some pi1 →
  edges_ (in_param pi1) = [].
Proof.
  intros Hwf Hrun Hpi1.
  pose proof Hrun as (pi & Hpi & _)%DisconnectForNewOutput_inv.
  destruct (DisconnectForNewOutput_wf h input pi Hwf Hpi)
    as [[Hnil Hrun']|(edge & ed & po & Hes & Hed & Hin & Hpo & Hrun')].
  - rewrite Hrun in Hrun'. injection Hrun' as -> ->. congruence.
  - rewrite Hrun in Hrun'. injection Hrun' as -> ->.
    unfold disconnected in Hpi1; cbn in Hpi1. rewrite Hin in Hpi1.
    rewrite lookup_insert_eq in Hpi1. injection Hpi1 as <-. cbn.
    rewrite Hes. cbn. by rewrite decide_False by (intros Hn; by apply Hn).
Qed.

Lemma ConnectEdge_keeps_wf h output input r h' :
  wf h → ConnectEdge output input h = Some (r, h') → wf h'.
Proof.
  intros Hwf Hrun.
  pose proof Hrun as (r1 & h1 & pi & Hdfno & Hpi & Hcases)%ConnectEdge_inv.
  pose proof (DisconnectForNewOutput_keeps_wf _ _ _ _ Hwf Hdfno) as Hwf1.
  destruct Hcases as [(_ & t & ->)|(po & Hpo & _ & ->)].
  - by apply wf_set_trace.
  - apply wf_connected; try done.
    + apply fresh_edge_None.
    + by apply (DisconnectForNewOutput_leaves_none h input r1 h1).
Qed.

(** ** DisconnectEdge on an output and an input *)

Lemma DisconnectEdge_loop_keeps_wf es input h u h' :
  wf h → DisconnectEdge_loop es input h = Some (u, h') → wf h'.
Proof.
  intros Hwf. induction es as [|e es IH]; cbn.
  - unfold mret, M_ret. congruence.
  - intros (ed & h0 & [_ ->]%get_edge_inv & Hrest)%bind_inv.
    destruct (decide (edge_input ed = input)); [|by apply IH].
    apply DisconnectEdge_inv in Hrest as (ed' & po & pi & Hed & Hpo & Hpi & ->).
    by apply wf_disconnected.
Qed.

Lemma DisconnectEdge_loop_run_none es input h :
  (∀ e, e ∈ es → ∃ ed, edge_objs h !! e = Some ed ∧ edge_input ed ≠ input) →
  DisconnectEdge_loop es input h = Some (tt, h).
Proof.
  induction es as [|e es IH]; intros Hes; cbn; [done|].
  destruct (Hes e) as (ed & Hed & Hne); [apply list_elem_of_here|].
  rewrite (bind_run _ _ _ _ _ (get_edge_run _ _ _ Hed)).
  rewrite decide_False by done. apply IH. intros e' He'. apply Hes.
  by apply list_elem_of_further.
Qed.

Lemma run_op_keeps_wf op h u h' :
  wf h → run_op op h = Some (u, h') → wf h'.
Proof.
  intros Hwf. destruct op as [output input|edge|output input]; cbn.
  - intros (r & h1 & Hrun & Hret)%bind_inv. unfold mret, M_ret in Hret.
    injection Hret as _ <-. by apply (ConnectEdge_keeps_wf h output input r).
  - intros (ed & po & pi & Hed & Hpo & Hpi & ->)%DisconnectEdge_inv.
    by apply wf_disconnected.
  - unfold DisconnectEdge_between.
    intros (po & h0 & [_ ->]%get_output_inv & Hloop)%bind_inv.
    by apply (DisconnectEdge_loop_keeps_wf _ _ _ _ _ Hwf Hloop).
Qed.

Lemma run_ops_keeps_wf ops h u h' :
  wf h → run_ops ops h = Some (u, h') → wf h'.
Proof.
  revert h. induction ops as [|op ops IH]; intros h Hwf; cbn.
  - unfold mret, M_ret. congruence.
  - intros (u1 & h1 & Hop & Hrest)%bind_inv.
    apply (IH h1); [|done]. by apply (run_op_keeps_wf op h u1).
Qed.

(** ** Data-type compatibility *)

(** C2, as amended.  For all data types [o] and [i],
    [AreDataTypesCompatible o i] is true if and only if [o = i], or
    [i = kAny], or [o = kInt] and [i = kFloat]; and it is false whenever
    [i = kNone] and [o] is not [kNone] as well. *)
Theorem AreDataTypesCompatible_spec (o i : DataType) :
  (AreDataTypesCompatible o i = true ↔
     o = i ∨ i = kAny ∨ (o = kInt ∧ i = kFloat)) ∧
  (i = kNone → o ≠ kNone → AreDataTypesCompatible o i = false).
Proof.
  split.
  - unfold AreDataTypesCompatible. repeat case_decide; naive_solver.
  - intros -> Ho. unfold AreDataTypesCompatible.
    rewrite decide_False by congruence. by rewrite decide_True.
Qed.

Lemma AreDataTypesCompatible_spec_witness :
  AreDataTypesCompatible kInt kNone = false.
Proof.
  apply (proj2 (AreDataTypesCompatible_spec kInt kNone)); [reflexivity|discriminate].
Defined.

(** C2 as stated fails: the equality test comes first, so [kNone] is
    compatible with [kNone], while the claim wants every pair with input
    type [kNone] incompatible. *)
Lemma AreDataTypesCompatible_kNone_kNone :
  AreDataTypesCompatible kNone kNone = true ∧
  ¬ (∀ o i : DataType,
       (AreDataTypesCompatible o i = true ↔
          o = i ∨ i = kAny ∨ (o = kInt ∧ i = kFloat)) ∧
       (i = kNone → AreDataTypesCompatible o i = false)).
Proof.
  split; [reflexivity|].
  intros Hclaim. destruct (Hclaim kNone kNone) as [_ Hnone].
  specialize (Hnone eq_refl). discriminate Hnone.
Qed.

Lemma AreDataTypesCompatible_list_spec (o : DataType) (l : list DataType) :
  AreDataTypesCompatible_list o l = true ↔
  ∃ i, i ∈ l ∧ AreDataTypesCompatible o i = true.
Proof.
  induction l as [|t l IH]; cbn.
  - split; [done|]. by intros (i & ?%elem_of_nil & _).
  - destruct (AreDataTypesCompatible o t) eqn:Ht.
    + split; [|done]. intros _. exists t. split; [apply list_elem_of_here|done].
    + rewrite IH. split.
      * intros (i & Hi & Hc). exists i. split; [by apply list_elem_of_further|done].
      * intros (i & [->|Hi]%elem_of_cons & Hc); [congruence|eauto].
Qed.

(** ** Value encoding *)

(** C9.  For every value, [ValueToBytes] returns the empty byte sequence
    when the type is one of None, Texture, Block, Track and Any, whatever
    the layout of the encoded types is. *)
Theorem ValueToBytes_no_persistent_form
    (QVariant : Type) (ValueToBytesInternal : CppType → QVariant → list Byte.byte)
    (value : QVariant) :
  ValueToBytes QVariant ValueToBytesInternal kNone value = [] ∧
  ValueToBytes QVariant ValueToBytesInternal kTexture value = [] ∧
  ValueToBytes QVariant ValueToBytesInternal kBlock value = [] ∧
  ValueToBytes QVariant ValueToBytesInternal kTrack value = [] ∧
  ValueToBytes QVariant ValueToBytesInternal kAny value = [].
Proof. repeat split. Qed.

(** ** The demonstration graph *)

Lemma demo_heap_unconnected : unconnected demo_heap.
Proof.
  split; [reflexivity|]. split.
  - unfold demo_heap; cbn. repeat apply map_Forall_insert_2; try done.
  - unfold demo_heap; cbn. repeat apply map_Forall_insert_2; try done.
Qed.

Lemma demo_heap_connect :
  ConnectEdge 10 20 demo_heap = Some (Some 1%positive, demo_heap_connected).
Proof. by vm_compute. Qed.

Lemma demo_heap_connected_wf : wf demo_heap_connected.
Proof.
  apply (ConnectEdge_keeps_wf demo_heap 10 20 (Some 1%positive)).
  - apply wf_unconnected, demo_heap_unconnected.
  - apply demo_heap_connect.
Qed.

(** ** Disconnecting *)

(** C8.  When no edge in the output's list leads to the input,
    [DisconnectEdge] on the output and the input returns normally and
    leaves the heap as it was: every edge list, every object, and the
    trace (no lock is taken, no signal emitted). *)
Theorem DisconnectEdge_between_absent h output input po :
  wf h →
  outputs h !! output = Some po →
  (∀ e ed, e ∈ edges_of_output h output →
           edge_objs h !! e = Some ed → edge_input ed ≠ input) →
  DisconnectEdge_between output input h = Some (tt, h).
Proof.
  intros Hwf Hpo Hnone. unfold DisconnectEdge_between.
  rewrite (bind_run _ _ _ _ _ (get_output_run _ _ _ Hpo)).
  apply DisconnectEdge_loop_run_none. intros e He.
  assert (e ∈ edges_of_output h output) as He'.
  { unfold edges_of_output. by rewrite Hpo. }
  destruct (wf_out_edges h Hwf output e He') as (ed & Hed & _).
  exists ed. split; [done|]. by apply (Hnone e).
Qed.

Lemma DisconnectEdge_between_absent_witness :
  DisconnectEdge_between 10 21 demo_heap_connected = Some (tt, demo_heap_connected).
Proof.
  apply (DisconnectEdge_between_absent demo_heap_connected 10 21
           (mkOutput (mkParam (-1) true "p" EmptyString [1%positive] 1) kFloat)).
  - apply demo_heap_connected_wf.
  - reflexivity.
  - intros e ed He Hed. vm_compute in He.
    apply list_elem_of_singleton in He as ->.
    vm_compute in Hed. injection Hed as <-. discriminate.
Defined.

(** C5.  In every heap reached from an unconnected one by a sequence of
    [ConnectEdge] and [DisconnectEdge] calls, each edge is in the list of
    its output exactly when it is in the list of its input; and
    [DisconnectEdge] on any edge of such a heap returns, with the edge in
    neither list afterwards and every edge still two-sided. *)
Theorem edges_two_sided h ops h' :
  unconnected h →
  run_ops ops h = Some (tt, h') →
  two_sided h' ∧
  (∀ edge ed, edge_objs h' !! edge = Some ed →
     ∃ h'', DisconnectEdge edge h' = Some (tt, h'') ∧
            (edge ∉ edges_of_output h'' (edge_output ed)) ∧
            (edge ∉ edges_of_input h'' (edge_input ed)) ∧
            two_sided h'').
Proof.
  intros Hinit Hrun.
  assert (wf h') as Hwf.
  { apply (run_ops_keeps_wf ops h tt); [by apply wf_unconnected|done]. }
  split; [by apply wf_two_sided|].
  intros edge ed Hed.
  destruct (wf_edge_ends h' Hwf edge ed Hed) as [[po Hpo] [pi Hpi]].
  exists (disconnected edge ed po pi h'). split; [by apply DisconnectEdge_run|].
  split; [|split].
  - rewrite elem_of_edges_disconnected_out by done. naive_solver.
  - rewrite elem_of_edges_disconnected_in by done. naive_solver.
  - apply wf_two_sided. by apply wf_disconnected.
Qed.

Lemma edges_two_sided_witness :
  edges_of_output demo_heap_edited 10 = [4%positive] ∧
  two_sided demo_heap_edited ∧
  (∀ edge ed, edge_objs demo_heap_edited !! edge = Some ed →
     ∃ h'', DisconnectEdge edge demo_heap_edited = Some (tt, h'') ∧
            (edge ∉ edges_of_output h'' (edge_output ed)) ∧
            (edge ∉ edges_of_input h'' (edge_input ed)) ∧
            two_sided h'').
Proof.
  split; [reflexivity|].
  apply (edges_two_sided demo_heap demo_ops demo_heap_edited).
  - apply demo_heap_unconnected.
  - by vm_compute.
Defined.

(** ** Cache invalidation *)

(** C6.  After an edge of an input has been added by [ConnectEdge] or
    removed by [DisconnectEdge], the input's cached time is the sentinel
    -1, which no valid request time equals. *)
Theorem edge_mutation_clears_cache input h h' :
  edge_mutation input h h' →
  ∃ pi, inputs h' !! input = Some pi ∧
        LastRequestedTime (in_param pi) = (-1)%Q ∧
        ∀ t, valid_request_time t → ¬ (t == LastRequestedTime (in_param pi))%Q.
Proof.
  assert (∀ t, valid_request_time t → ¬ (t == -1)%Q) as Hsentinel.
  { unfold valid_request_time. intros t Ht Heq. rewrite Heq in Ht.
    by apply Qle_bool_iff in Ht. }
  intros [output edge Hrun|edge ed Hed Hin Hrun].
  - apply ConnectEdge_inv in Hrun as (r1 & h1 & pi & _ & Hpi & [[? _]|Hnew]); [done|].
    destruct Hnew as (po & _ & _ & ->).
    eexists. split; [apply lookup_insert_eq|]. cbn. auto.
  - apply DisconnectEdge_inv in Hrun as (ed' & po & pi & Hed' & _ & _ & ->).
    assert (ed' = ed) as -> by congruence. subst input.
    eexists. split; [apply lookup_insert_eq|]. cbn. auto.
Qed.

Lemma edge_mutation_clears_cache_witness :
  ∃ pi, inputs demo_heap_connected !! 20%positive = Some pi ∧
        LastRequestedTime (in_param pi) = (-1)%Q ∧
        ∀ t, valid_request_time t → ¬ (t == LastRequestedTime (in_param pi))%Q.
Proof.
  apply (edge_mutation_clears_cache 20 demo_heap demo_heap_connected).
  apply (edge_added 20 demo_heap demo_heap_connected 10 1). by vm_compute.
Defined.

(** ** Connecting on a well-formed heap *)

(** What [DisconnectForNewOutput] leaves of the two parameters of a
    [ConnectEdge] call: the input without edges, data types and owners as
    they were. *)
Lemma DisconnectForNewOutput_wf_objects h output input po pi :
  wf h →
  outputs h !! output = Some po →
  inputs h !! input = Some pi →
  ∃ r1 h1 po1 pi1,
    DisconnectForNewOutput input h = Some (r1, h1) ∧
    outputs h1 !! output = Some po1 ∧
    inputs h1 !! input = Some pi1 ∧
    edges_ (in_param pi1) = [] ∧
    data_type_ po1 = data_type_ po ∧
    parent_ (out_param po1) = parent_ (out_param po) ∧
    inputs_ pi1 = inputs_ pi ∧
    parent_ (in_param pi1) = parent_ (in_param pi) ∧
    nodes h1 = nodes h ∧
    edge_objs h1 = edge_objs h ∧
    (edges_ (in_param pi) = [] → h1 = h) ∧
    (∀ e0, e0 ∈ edges_ (in_param pi) →
       ∃ ed0 po0, edge_objs h !! e0 = Some ed0 ∧ edge_input ed0 = input ∧
                  outputs h !! edge_output ed0 = Some po0 ∧
                  h1 = disconnected e0 ed0 po0 pi h).
Proof.
  intros Hwf Hpo Hpi.
  destruct (DisconnectForNewOutput_wf h input pi Hwf Hpi)
    as [[Hnil Hrun]|(edge & ed & po0 & Hes & Hed & Hin & Hpo0 & Hrun)].
  - exists None, h, po, pi. repeat split; try done.
    intros e0. rewrite Hnil. by intros ?%elem_of_nil.
  - assert (∃ po1, outputs (disconnected edge ed po0 pi h) !! output = Some po1 ∧
              data_type_ po1 = data_type_ po ∧
              parent_ (out_param po1) = parent_ (out_param po))
      as (po1 & Hpo1 & Hdt & Hpar).
    { unfold disconnected; cbn. destruct (decide (edge_output ed = output)) as [Heq|Hne].
      - rewrite Heq, lookup_insert_eq. rewrite Heq in Hpo0.
        assert (po0 = po) as -> by congruence. eexists. by split.
      - rewrite lookup_insert_ne by done. by exists po. }
    eexists (Some edge), _, po1, _. split; [exact Hrun|].
    split; [exact Hpo1|]. split.
    { unfold disconnected; cbn. rewrite Hin. apply lookup_insert_eq. }
    cbn. rewrite Hes. cbn. rewrite decide_False by (intros Hn; by apply Hn).
    repeat split; try done.
    intros e0 ->%list_elem_of_singleton. by exists ed, po0.
Qed.

(** C4.  When the input already has an edge [e0] and the output's type is
    accepted and both nodes are in one graph, [ConnectEdge] succeeds, the
    new edge is the only edge of the input afterwards, and [e0] is in
    neither the list of its output nor the list of its input.  This holds
    for every output, the one [e0] comes from included. *)
Theorem ConnectEdge_replaces_edge h output input po pi e0 graph :
  wf h →
  outputs h !! output = Some po →
  inputs h !! input = Some pi →
  e0 ∈ edges_ (in_param pi) →
  can_accept_type pi (data_type_ po) = true →
  nodes h !! parent_ (out_param po) = Some graph →
  nodes h !! parent_ (in_param pi) = Some graph →
  ∃ e1 h' ed0,
    ConnectEdge output input h = Some (Some e1, h') ∧
    edges_of_input h' input = [e1] ∧
    e1 ≠ e0 ∧
    edge_objs h !! e0 = Some ed0 ∧
    edge_input ed0 = input ∧
    (e0 ∉ edges_of_output h' (edge_output ed0)) ∧
    (e0 ∉ edges_of_input h' (edge_input ed0)).
Proof.
  intros Hwf Hpo Hpi He0 Hacc Hog Hig.
  destruct (DisconnectForNewOutput_wf_objects h output input po pi Hwf Hpo Hpi)
    as (r1 & h1 & po1 & pi1 & Hdfno & Hpo1 & Hpi1 & Hnil & Hdt & Hpo_par & Hins
        & Hpi_par & Hnodes & Hobjs & _ & Hfirst).
  destruct (Hfirst e0 He0) as (ed0 & po0 & Hed0 & Hin0 & Hpo0 & Hh1).
  assert (has_edge_from (edges_ (in_param pi1)) output h1 = Some (false, h1)) as Hscan.
  { by rewrite Hnil. }
  pose proof (ConnectEdge_run h output input r1 h1 pi1 po1 Hdfno Hpi1 Hscan Hpo1) as Hrun.
  unfold can_accept_type in Hrun, Hacc. rewrite Hins, Hdt, Hacc in Hrun.
  rewrite Hpo_par, Hpi_par, Hnodes, Hog, Hig in Hrun.
  rewrite decide_True in Hrun by done. cbn zeta in Hrun.
  set (e1 := fresh (dom (edge_objs h1))) in *.
  assert (e1 ≠ e0) as Hne.
  { intros Heq. pose proof (fresh_edge_None h1) as Hf. fold e1 in Hf.
    rewrite Heq, Hobjs, Hed0 in Hf. done. }
  assert (edges_of_input (connected e1 output input po1 pi1 h1) input = [e1]) as Hlist.
  { unfold edges_of_input, connected; cbn. rewrite lookup_insert_eq; cbn.
    by rewrite Hnil. }
  exists e1, (connected e1 output input po1 pi1 h1), ed0.
  repeat split; try done.
  - rewrite elem_of_edges_connected_out by done. intros [Hin|[_ ?]]; [|done].
    rewrite Hh1 in Hin. apply elem_of_edges_disconnected_out in Hin; [|done].
    naive_solver.
  - rewrite Hin0, Hlist. by intros ?%list_elem_of_singleton.
Qed.

Lemma ConnectEdge_replaces_edge_witness :
  ∃ e1 h' ed0,
    ConnectEdge 13 20 demo_heap_connected = Some (Some e1, h') ∧
    edges_of_input h' 20 = [e1] ∧
    e1 ≠ 1%positive ∧
    edge_objs demo_heap_connected !! 1%positive = Some ed0 ∧
    edge_input ed0 = 20%positive ∧
    (1%positive ∉ edges_of_output h' (edge_output ed0)) ∧
    (1%positive ∉ edges_of_input h' (edge_input ed0)).
Proof.
  apply (ConnectEdge_replaces_edge demo_heap_connected 13 20
           (mkOutput (demo_param 1) kInt)
           (mkInput (mkParam (-1) true "p" EmptyString [1%positive] 2) [kInt; kFloat])
           1 100).
  - apply demo_heap_connected_wf.
  - reflexivity.
  - reflexivity.
  - apply list_elem_of_here.
  - reflexivity.
  - reflexivity.
  - reflexivity.
Defined.

(** C1, as amended.  When the output's type is not accepted by the input,
    or the two nodes are in different graphs, [ConnectEdge] returns no
    edge, and the objects of the heap are as [DisconnectForNewOutput]
    leaves them: the first edge of the input, if it has one, is removed
    from the lists of both its ends and the input's cached time reset,
    and nothing else changes; an input without edge leaves every object
    as it was. *)
Theorem ConnectEdge_rejected h output input po pi :
  wf h →
  outputs h !! output = Some po →
  inputs h !! input = Some pi →
  (can_accept_type pi (data_type_ po) = false ∨
   ∃ output_graph input_graph,
     nodes h !! parent_ (out_param po) = Some output_graph ∧
     nodes h !! parent_ (in_param pi) = Some input_graph ∧
     output_graph ≠ input_graph) →
  ∃ r1 h1 h',
    DisconnectForNewOutput input h = Some (r1, h1) ∧
    ConnectEdge output input h = Some (None, h') ∧
    inputs h' = inputs h1 ∧ outputs h' = outputs h1 ∧
    edge_objs h' = edge_objs h1 ∧ nodes h' = nodes h1 ∧
    (edges_ (in_param pi) = [] →
       inputs h' = inputs h ∧ outputs h' = outputs h ∧
       edge_objs h' = edge_objs h ∧ nodes h' = nodes h) ∧
    (∀ e0, e0 ∈ edges_ (in_param pi) →
       ∃ ed0 po0, edge_objs h !! e0 = Some ed0 ∧
                  outputs h !! edge_output ed0 = Some po0 ∧
                  edge_input ed0 = input ∧
                  h1 = disconnected e0 ed0 po0 pi h).
Proof.
  intros Hwf Hpo Hpi Hrej.
  destruct (DisconnectForNewOutput_wf_objects h output input po pi Hwf Hpo Hpi)
    as (r1 & h1 & po1 & pi1 & Hdfno & Hpo1 & Hpi1 & Hnil & Hdt & Hpo_par & Hins
        & Hpi_par & Hnodes & Hobjs & Hsame & Hfirst).
  assert (has_edge_from (edges_ (in_param pi1)) output h1 = Some (false, h1)) as Hscan.
  { by rewrite Hnil. }
  pose proof (ConnectEdge_run h output input r1 h1 pi1 po1 Hdfno Hpi1 Hscan Hpo1) as Hrun.
  unfold can_accept_type in Hrun, Hrej. rewrite Hins, Hdt in Hrun.
  rewrite Hpo_par, Hpi_par, Hnodes in Hrun.
  assert (∃ t, ConnectEdge output input h = Some (None, set_trace t h1)) as [t Hrun'].
  { destruct Hrej as [Hacc|(og & ig & Hog & Hig & Hne)].
    - rewrite Hacc in Hrun. eauto.
    - rewrite Hog, Hig in Hrun. rewrite decide_False in Hrun by done.
      destruct (AreDataTypesCompatible_list (data_type_ po) (inputs_ pi)); eauto. }
  exists r1, h1, (set_trace t h1).
  split; [done|]. split; [done|]. do 4 (split; [done|]). split.
  - intros Hempty. by rewrite (Hsame Hempty).
  - intros e0 He0. destruct (Hfirst e0 He0) as (ed0 & po0 & ? & ? & ? & ?).
    by exists ed0, po0.
Qed.

Lemma ConnectEdge_rejected_witness :
  ∃ r1 h1 h',
    DisconnectForNewOutput 20 demo_heap_connected = Some (r1, h1) ∧
    ConnectEdge 12 20 demo_heap_connected = Some (None, h') ∧
    inputs h' = inputs h1 ∧ outputs h' = outputs h1 ∧
    edge_objs h' = edge_objs h1 ∧ nodes h' = nodes h1 ∧
    (edges_ (set_edges [1%positive] (demo_param 2)) = [] →
       inputs h' = inputs demo_heap_connected ∧
       outputs h' = outputs demo_heap_connected ∧
       edge_objs h' = edge_objs demo_heap_connected ∧
       nodes h' = nodes demo_heap_connected) ∧
    (∀ e0, e0 ∈ edges_ (set_edges [1%positive] (demo_param 2)) →
       ∃ ed0 po0, edge_objs demo_heap_connected !! e0 = Some ed0 ∧
                  outputs demo_heap_connected !! edge_output ed0 = Some po0 ∧
                  edge_input ed0 = 20%positive ∧
                  h1 = disconnected e0 ed0 po0
                         (mkInput (set_edges [1%positive] (demo_param 2)) [kInt; kFloat])
                         demo_heap_connected).
Proof.
  apply (ConnectEdge_rejected demo_heap_connected 12 20
           (mkOutput (demo_param 3) kFloat)
           (mkInput (set_edges [1%positive] (demo_param 2)) [kInt; kFloat])).
  - apply demo_heap_connected_wf.
  - reflexivity.
  - reflexivity.
  - right. exists 200%positive, 100%positive. repeat split; discriminate.
Defined.

(** C1 as stated fails: on the connected heap, where input 20 has edge 1
    from output 10, offering the String output 11 to input 20 is refused
    and returns no edge, but edge 1 is gone from both lists. *)
Lemma rejected_ConnectEdge_drops_edge :
  can_accept_type (mkInput (demo_param 2) [kInt; kFloat]) kString = false ∧
  ConnectEdge 11 20 demo_heap_connected = Some (None, demo_heap_rejected) ∧
  edges_of_input demo_heap_connected 20 = [1%positive] ∧
  edges_of_output demo_heap_connected 10 = [1%positive] ∧
  edges_of_input demo_heap_rejected 20 = [] ∧
  edges_of_output demo_heap_rejected 10 = [] ∧
  ¬ (∀ p, edges_of_input demo_heap_rejected p = edges_of_input demo_heap_connected p).
Proof.
  repeat apply conj; try (vm_compute; reflexivity).
  intros Hsame. specialize (Hsame 20%positive). vm_compute in Hsame. discriminate.
Qed.

(** C3: the code does not do what the claim says.  On the connected heap
    edge 1 leads from output 10 to input 20; a second [ConnectEdge 10 20]
    returns the new edge 2 instead of no edge, and the lists of both ends
    hold edge 2 in place of edge 1, with an edge-removed and an edge-added
    signal emitted. *)
Lemma ConnectEdge_existing_edge_replaced :
  edge_objs demo_heap_connected !! 1%positive = Some (mkEdge 10 20) ∧
  edges_of_input demo_heap_connected 20 = [1%positive] ∧
  edges_of_output demo_heap_connected 10 = [1%positive] ∧
  ConnectEdge 10 20 demo_heap_connected = Some (Some 2%positive, demo_heap_reconnected) ∧
  edges_of_input demo_heap_reconnected 20 = [2%positive] ∧
  edges_of_output demo_heap_reconnected 10 = [2%positive] ∧
  trace demo_heap_reconnected =
    trace demo_heap_connected ++
    [Lock 1; Lock 2; Unlock 1; Unlock 2; EdgeRemoved 20 1;
     Lock 1; Lock 2; Unlock 1; Unlock 2; EdgeAdded 20 2].
Proof. repeat apply conj; vm_compute; reflexivity. Qed.

(** ** Decoder probing *)

Section ProbeMedia_facts.
Variable QFileInfo_exists : string → bool.
Variable Clear : Footage → Footage.
Variable OIIODecoder : Decoder.
Variable FFmpegDecoder : Decoder.

Lemma ProbeMedia_loop_first_accepting before decoder after f f1 f2 :
  all_reject before f = Some f1 →
  Probe decoder f1 = (true, f2) →
  ProbeMedia_loop (before ++ decoder :: after) f =
    (true, set_decoder (decoder_id decoder) (set_status kReady f2)).
Proof.
  revert f. induction before as [|d before IH]; intros f; cbn.
  - intros [= ->] Hacc. by rewrite Hacc.
  - destruct (Probe d f) as [[] f'] eqn:Hd; [done|]. apply IH.
Qed.

Lemma ProbeMedia_loop_all_reject decoder_list f f1 :
  all_reject decoder_list f = Some f1 →
  ProbeMedia_loop decoder_list f =
    (false, set_decoder EmptyString (set_status kInvalid f1)).
Proof.
  revert f. induction decoder_list as [|d l IH]; intros f; cbn.
  - by intros [= ->].
  - destruct (Probe d f) as [[] f'] eqn:Hd; [done|]. apply IH.
Qed.

(** C7.  For a footage whose file name is not empty and names a file
    that exists: the candidates are the still-image decoder and then
    the generic one; if the decoders before some candidate all reject
    and that candidate accepts, [ProbeMedia] returns true with status
    Ready and that candidate's identifier, whatever candidates come
    after; if all candidates reject, it returns false with status
    Invalid. *)
Theorem ProbeMedia_first_accepting f :
  isEmpty (filename_ f) = false →
  QFileInfo_exists (filename_ f) = true →
  ReceiveListOfAllDecoders OIIODecoder FFmpegDecoder = [OIIODecoder; FFmpegDecoder] ∧
  (∀ before decoder after f1 f2,
     ReceiveListOfAllDecoders OIIODecoder FFmpegDecoder = before ++ decoder :: after →
     all_reject before (Clear f) = Some f1 →
     Probe decoder f1 = (true, f2) →
     ∃ f', ProbeMedia QFileInfo_exists Clear OIIODecoder FFmpegDecoder f = (true, f') ∧
           f' = set_decoder (decoder_id decoder) (set_status kReady f2) ∧
           status_ f' = kReady ∧
           decoder_ f' = decoder_id decoder) ∧
  (∀ f1,
     all_reject (ReceiveListOfAllDecoders OIIODecoder FFmpegDecoder) (Clear f) = Some f1 →
     ∃ f', ProbeMedia QFileInfo_exists Clear OIIODecoder FFmpegDecoder f = (false, f') ∧
           f' = set_decoder EmptyString (set_status kInvalid f1) ∧
           status_ f' = kInvalid).
Proof.
  intros Hname Hexists. split; [reflexivity|]. split.
  - intros before decoder after f1 f2 Hlist Hrej Hacc.
    eexists. split; [|by split].
    unfold ProbeMedia. rewrite Hname, Hexists; cbn [negb]. rewrite Hlist.
    by apply ProbeMedia_loop_first_accepting with f1.
  - intros f1 Hrej. eexists. split; [|by split].
    unfold ProbeMedia. rewrite Hname, Hexists; cbn [negb].
    by apply ProbeMedia_loop_all_reject.
Qed.

(** C10.  For a footage whose file name is empty or names a file that
    does not exist, [ProbeMedia] returns false and the footage as it
    was: status, stream list and decoder identifier are untouched, and
    [Clear] is not run. *)
Theorem ProbeMedia_invalid_filename f :
  isEmpty (filename_ f) = true ∨ QFileInfo_exists (filename_ f) = false →
  ProbeMedia QFileInfo_exists Clear OIIODecoder FFmpegDecoder f = (false, f).
Proof.
  intros [Hname|Hexists]; unfold ProbeMedia.
  - by rewrite Hname.
  - rewrite Hexists. by destruct (isEmpty (filename_ f)).
Qed.
End ProbeMedia_facts.

Lemma ProbeMedia_first_accepting_witness :
  ∃ f', ProbeMedia demo_exists demo_Clear demo_oiio demo_ffmpeg
          (demo_footage "clip.mov") = (true, f') ∧
        f' = set_decoder "ffmpeg"
               (set_status kReady (demo_Clear (demo_footage "clip.mov"))) ∧
        status_ f' = kReady ∧
        decoder_ f' = "ffmpeg"%string.
Proof.
  destruct (ProbeMedia_first_accepting demo_exists demo_Clear demo_oiio demo_ffmpeg
              (demo_footage "clip.mov") eq_refl eq_refl) as (_ & Hfirst & _).
  apply (Hfirst [demo_oiio] demo_ffmpeg [] (demo_Clear (demo_footage "clip.mov")));
    reflexivity.
Defined.

Lemma ProbeMedia_invalid_filename_witness :
  ProbeMedia demo_exists demo_Clear demo_oiio demo_ffmpeg (demo_footage "missing.mov")
  = (false, demo_footage "missing.mov").
Proof.
  apply (ProbeMedia_invalid_filename demo_exists demo_Clear demo_oiio demo_ffmpeg).
  right. reflexivity.
Defined.

(** ** More on data-type compatibility *)

Lemma AreDataTypesCompatible_true_iff (o i : DataType) :
  AreDataTypesCompatible o i = true ↔ o = i ∨ i = kAny ∨ (o = kInt ∧ i = kFloat).
Proof. unfold AreDataTypesCompatible. repeat case_decide; naive_solver. Qed.

(** X1.  Compatibility is reflexive and transitive: what an output type
    can feed through an intermediate type it can feed directly. *)
Theorem AreDataTypesCompatible_preorder :
  (∀ t, AreDataTypesCompatible t t = true) ∧
  (∀ a b c,
     AreDataTypesCompatible a b = true →
     AreDataTypesCompatible b c = true →
     AreDataTypesCompatible a c = true).
Proof.
  split.
  - intros t. apply AreDataTypesCompatible_true_iff. by left.
  - intros a b c. rewrite !AreDataTypesCompatible_true_iff.
    intros [->|[->|[-> ->]]] [Hbc|[->|[Hb ->]]]; subst; auto; try discriminate.
Qed.

Lemma AreDataTypesCompatible_preorder_witness :
  AreDataTypesCompatible kInt kAny = true.
Proof.
  apply (proj2 AreDataTypesCompatible_preorder kInt kFloat kAny); reflexivity.
Defined.

(** X2.  The list overload accepts an output type exactly when the list
    holds that type, or [kAny], or [kFloat] for an [kInt] output; an
    empty list accepts nothing. *)
Theorem AreDataTypesCompatible_list_accepts (o : DataType) (l : list DataType) :
  (AreDataTypesCompatible_list o l = true ↔
     o ∈ l ∨ kAny ∈ l ∨ (o = kInt ∧ kFloat ∈ l)) ∧
  AreDataTypesCompatible_list o [] = false.
Proof.
  split; [|done].
  rewrite AreDataTypesCompatible_list_spec. split.
  - intros (i & Hi & [->|[->|[-> ->]]]%AreDataTypesCompatible_true_iff); auto.
  - intros [Ho|[Hany|[-> Hf]]].
    + exists o. split; [done|]. apply AreDataTypesCompatible_true_iff. auto.
    + exists kAny. split; [done|]. apply AreDataTypesCompatible_true_iff. auto.
    + exists kFloat. split; [done|]. apply AreDataTypesCompatible_true_iff. auto.
Qed.

Ltac run_params :=
  unfold AreDataTypesCompatible_params, type, get_input, get_output,
    mbind, M_bind, option_bind, mret, M_ret, address; cbn;
  repeat (first
    [ rewrite decide_True by done
    | rewrite decide_False by done
    | match goal with
      | H : ?m !! ?k = _ |- context [?m !! ?k] => rewrite H
      end ]; cbn).

(** X3.  The check on two parameters does not depend on their order; it
    is false for two inputs and for two outputs, and for an output and an
    input it is the input's [can_accept_type] at the output's type. *)
Theorem AreDataTypesCompatible_params_spec h :
  (∀ a b, AreDataTypesCompatible_params a b h = AreDataTypesCompatible_params b a h) ∧
  (∀ i1 i2 p1 p2,
     inputs h !! i1 = Some p1 → inputs h !! i2 = Some p2 →
     AreDataTypesCompatible_params (InputPtr i1) (InputPtr i2) h = Some (false, h)) ∧
  (∀ o1 o2 p1 p2,
     outputs h !! o1 = Some p1 → outputs h !! o2 = Some p2 →
     AreDataTypesCompatible_params (OutputPtr o1) (OutputPtr o2) h = Some (false, h)) ∧
  (∀ o i po pi,
     outputs h !! o = Some po → inputs h !! i = Some pi →
     AreDataTypesCompatible_params (OutputPtr o) (InputPtr i) h =
       Some (can_accept_type pi (data_type_ po), h)).
Proof.
  split; [|split; [|split]].
  - intros [p|p] [q|q].
    + destruct (inputs h !! p) eqn:Hp, (inputs h !! q) eqn:Hq; run_params; done.
    + destruct (inputs h !! p) eqn:Hp, (outputs h !! q) eqn:Hq; run_params; done.
    + destruct (outputs h !! p) eqn:Hp, (inputs h !! q) eqn:Hq; run_params; done.
    + destruct (outputs h !! p) eqn:Hp, (outputs h !! q) eqn:Hq; run_params; done.
  - intros i1 i2 p1 p2 H1 H2. run_params. done.
  - intros o1 o2 p1 p2 H1 H2. run_params. done.
  - intros o i po pi Ho Hi. run_params. done.
Qed.

Lemma AreDataTypesCompatible_params_spec_witness :
  AreDataTypesCompatible_params (InputPtr 20) (OutputPtr 13) demo_heap =
    Some (true, demo_heap) ∧
  AreDataTypesCompatible_params (InputPtr 20) (InputPtr 21) demo_heap =
    Some (false, demo_heap).
Proof.
  destruct (AreDataTypesCompatible_params_spec demo_heap) as (Hsym & Hin & _ & Hoi).
  split.
  - rewrite Hsym.
    apply (Hoi 13%positive 20%positive (mkOutput (demo_param 1) kInt)
             (mkInput (demo_param 2) [kInt; kFloat])); reflexivity.
  - apply (Hin 20%positive 21%positive (mkInput (demo_param 2) [kInt; kFloat])
             (mkInput (demo_param 2) [kInt; kFloat])); reflexivity.
Defined.

(** ** Invariants of editing sequences *)

(** The four ways [ConnectEdge] returns. *)
Lemma ConnectEdge_inv_cases h output input r h' :
  ConnectEdge output input h = Some (r, h') →
  ∃ r1 h1 pi,
    DisconnectForNewOutput input h = Some (r1, h1) ∧
    inputs h1 !! input = Some pi ∧
    ((r = None ∧ h' = h1) ∨
     (∃ po, outputs h1 !! output = Some po ∧
        can_accept_type pi (data_type_ po) = false ∧
        r = None ∧
        h' = set_trace (trace h1 ++ [qWarning invalid_connection_msg]) h1) ∨
     (∃ po output_graph input_graph,
        outputs h1 !! output = Some po ∧
        can_accept_type pi (data_type_ po) = true ∧
        nodes h1 !! parent_ (out_param po) = Some output_graph ∧
        nodes h1 !! parent_ (in_param pi) = Some input_graph ∧
        output_graph ≠ input_graph ∧
        r = None ∧
        h' = set_trace (trace h1 ++ [qWarning other_graph_msg]) h1) ∨
     (∃ po graph,
        outputs h1 !! output = Some po ∧
        can_accept_type pi (data_type_ po) = true ∧
        nodes h1 !! parent_ (out_param po) = Some graph ∧
        nodes h1 !! parent_ (in_param pi) = Some graph ∧
        r = Some (fresh (dom (edge_objs h1))) ∧
        h' = connected (fresh (dom (edge_objs h1))) output input po pi h1)).
Proof.
  intros Hrun. pose proof Hrun as Hrun'. unfold ConnectEdge in Hrun'.
  apply bind_inv in Hrun' as (r1 & h1 & Hdfno & Hrun').
  apply bind_inv in Hrun' as (pi & h2 & [Hpi ->]%get_input_inv & Hrun').
  apply bind_inv in Hrun' as (dup & h2 & Hscan & Hrun').
  pose proof (has_edge_from_inv _ _ _ _ _ Hscan) as ->.
  exists r1, h1, pi. do 2 (split; [done|]).
  destruct dup.
  { left. unfold mret, M_ret in Hrun'. by injection Hrun' as <- <-. }
  right.
  apply bind_inv in Hrun' as (po & h2 & [Hpo ->]%get_output_inv & _).
  rewrite (ConnectEdge_run _ _ _ _ _ _ _ Hdfno Hpi Hscan Hpo) in Hrun.
  destruct (can_accept_type pi (data_type_ po)) eqn:Hacc.
  - destruct (nodes h1 !! parent_ (out_param po)) as [og|] eqn:Hog; [|done].
    destruct (nodes h1 !! parent_ (in_param pi)) as [ig|] eqn:Hig; [|done].
    destruct (decide (og = ig)) as [->|Hne].
    + right; right. exists po, ig. cbn zeta in Hrun. injection Hrun as <- <-. done.
    + right; left. exists po, og, ig. injection Hrun as <- <-. done.
  - left. exists po. injection Hrun as <- <-. done.
Qed.

Section Invariant.
Variable P : Heap → Prop.
Hypothesis P_warning : ∀ h msg,
  P h → P (set_trace (trace h ++ [qWarning msg]) h).
Hypothesis P_disconnected : ∀ h edge ed po pi,
  P h →
  edge_objs h !! edge = Some ed →
  outputs h !! edge_output ed = Some po →
  inputs h !! edge_input ed = Some pi →
  P (disconnected edge ed po pi h).
Hypothesis P_connected : ∀ h0 r1 h output input po pi graph,
  P h0 → P h →
  DisconnectForNewOutput input h0 = Some (r1, h) →
  outputs h !! output = Some po →
  inputs h !! input = Some pi →
  can_accept_type pi (data_type_ po) = true →
  nodes h !! parent_ (out_param po) = Some graph →
  nodes h !! parent_ (in_param pi) = Some graph →
  P (connected (fresh (dom (edge_objs h))) output input po pi h).

Lemma DisconnectForNewOutput_invariant input h r h1 :
  P h → DisconnectForNewOutput input h = Some (r, h1) → P h1.
Proof.
  intros HP (pi & Hpi & [(_ & _ & ->)|Hcons])%DisconnectForNewOutput_inv; [done|].
  destruct Hcons as (edge & rest & ed & po & pi' & _ & _ & Hed & Hpo & Hpi' & ->).
  by apply P_disconnected.
Qed.

Lemma ConnectEdge_invariant output input h r h' :
  P h → ConnectEdge output input h = Some (r, h') → P h'.
Proof.
  intros HP (r1 & h1 & pi & Hdfno & Hpi & Hcases)%ConnectEdge_inv_cases.
  pose proof (DisconnectForNewOutput_invariant _ _ _ _ HP Hdfno) as HP1.
  destruct Hcases as [[_ ->]|[(po & _ & _ & _ & ->)|[Hother|Hnew]]]; [done| | |].
  - by apply P_warning.
  - destruct Hother as (po & og & ig & _ & _ & _ & _ & _ & _ & ->).
    by apply P_warning.
  - destruct Hnew as (po & graph & Hpo & Hacc & Hog & Hig & _ & ->).
    by apply (P_connected h r1 h1 output input po pi graph).
Qed.

Lemma DisconnectEdge_loop_invariant es input h u h' :
  P h → DisconnectEdge_loop es input h = Some (u, h') → P h'.
Proof.
  intros HP. induction es as [|e es IH]; cbn.
  - unfold mret, M_ret. congruence.
  - intros (ed & h0 & [_ ->]%get_edge_inv & Hrest)%bind_inv.
    destruct (decide (edge_input ed = input)); [|by apply IH].
    apply DisconnectEdge_inv in Hrest as (ed' & po & pi & Hed & Hpo & Hpi & ->).
    by apply P_disconnected.
Qed.

Lemma run_op_invariant op h u h' :
  P h → run_op op h = Some (u, h') → P h'.
Proof.
  intros HP. destruct op as [output input|edge|output input]; cbn.
  - intros (r & h1 & Hrun & Hret)%bind_inv. unfold mret, M_ret in Hret.
    injection Hret as _ <-. by apply (ConnectEdge_invariant output input h r).
  - intros (ed & po & pi & Hed & Hpo & Hpi & ->)%DisconnectEdge_inv.
    by apply P_disconnected.
  - unfold DisconnectEdge_between.
    intros (po & h0 & [_ ->]%get_output_inv & Hloop)%bind_inv.
    by apply (DisconnectEdge_loop_invariant _ _ _ _ _ HP Hloop).
Qed.

Lemma run_ops_invariant ops h u h' :
  P h → run_ops ops h = Some (u, h') → P h'.
Proof.
  revert h. induction ops as [|op ops IH]; intros h HP; cbn.
  - unfold mret, M_ret. congruence.
  - intros (u1 & h1 & Hop & Hrest)%bind_inv.
    apply (IH h1); [|done]. by apply (run_op_invariant op h u1).
Qed.
End Invariant.

Lemma reached_wf h : reached h → wf h.
Proof.
  intros (h0 & ops & Hinit & Hrun).
  apply (run_ops_keeps_wf ops h0 tt); [by apply wf_unconnected|done].
Qed.

Lemma demo_heap_connected_reached : reached demo_heap_connected.
Proof.
  exists demo_heap, [OpConnectEdge 10 20]. split; [apply demo_heap_unconnected|].
  vm_compute. reflexivity.
Qed.

Lemma demo_heap_edited_reached : reached demo_heap_edited.
Proof.
  exists demo_heap, demo_ops. split; [apply demo_heap_unconnected|].
  vm_compute. reflexivity.
Qed.

(** ** What no edit changes *)

Lemma fmap_insert_fixed {A B} (f : A → B) (m : gmap positive A) k v v' :
  m !! k = Some v → f v' = f v → f <$> <[k := v']> m = f <$> m.
Proof.
  intros Hk Hf. rewrite fmap_insert, Hf. apply insert_id.
  by rewrite lookup_fmap, Hk.
Qed.

Lemma unchanged_but_edges_refl h : unchanged_but_edges h h.
Proof. by repeat split. Qed.

Lemma unchanged_but_edges_warning h0 h msg :
  unchanged_but_edges h0 h →
  unchanged_but_edges h0 (set_trace (trace h ++ [qWarning msg]) h).
Proof. intros (? & ? & ? & ?). by repeat split. Qed.

Lemma unchanged_but_edges_disconnected h0 h edge ed po pi :
  unchanged_but_edges h0 h →
  outputs h !! edge_output ed = Some po →
  inputs h !! edge_input ed = Some pi →
  unchanged_but_edges h0 (disconnected edge ed po pi h).
Proof.
  intros (Hin & Hout & Hnodes & Hobjs) Hpo Hpi. unfold disconnected.
  split; [|split; [|split]]; cbn; try done.
  - rewrite <- Hin. by apply fmap_insert_fixed with pi.
  - rewrite <- Hout. by apply fmap_insert_fixed with po.
Qed.

Lemma unchanged_but_edges_connected h0 h edge output input po pi :
  unchanged_but_edges h0 h →
  edge_objs h !! edge = None →
  outputs h !! output = Some po →
  inputs h !! input = Some pi →
  unchanged_but_edges h0 (connected edge output input po pi h).
Proof.
  intros (Hin & Hout & Hnodes & Hobjs) Hnew Hpo Hpi. unfold connected.
  split; [|split; [|split]]; cbn; try done.
  - rewrite <- Hin. by apply fmap_insert_fixed with pi.
  - rewrite <- Hout. by apply fmap_insert_fixed with po.
  - etrans; [exact Hobjs|]. by apply insert_subseteq.
Qed.

(** X4.  Whatever sequence of [ConnectEdge] and [DisconnectEdge] calls
    runs, on any heap, it creates and destroys no parameter and no node,
    changes no parameter's identifier, name, caching flag, owner, data
    type or accepted types, and keeps every edge object as it was: only
    edge lists, cached times, new edge objects and the trace differ. *)
Theorem edits_change_edges_only ops h h' :
  run_ops ops h = Some (tt, h') →
  unchanged_but_edges h h'.
Proof.
  apply (run_ops_invariant (unchanged_but_edges h)).
  - intros h1 msg. apply unchanged_but_edges_warning.
  - intros h1 edge ed po pi Hun _ Hpo Hpi. by apply unchanged_but_edges_disconnected.
  - intros h0 r1 h1 output input po pi graph _ Hun _ Hpo Hpi _ _ _.
    apply unchanged_but_edges_connected; try done. apply fresh_edge_None.
  - apply unchanged_but_edges_refl.
Qed.

Lemma edits_change_edges_only_witness :
  unchanged_but_edges demo_heap demo_heap_edited.
Proof.
  apply (edits_change_edges_only demo_ops). vm_compute. reflexivity.
Defined.

(** ** Every edge is a legal connection *)

Lemma edge_valid_unchanged h h' ed :
  unchanged_but_edges h h' → edge_valid h ed → edge_valid h' ed.
Proof.
  intros (Hin & Hout & Hnodes & _) (po & pi & graph & Hpo & Hpi & Hacc & Hog & Hig).
  assert (∃ po', outputs h' !! edge_output ed = Some po' ∧
            data_type_ po' = data_type_ po ∧
            parent_ (out_param po') = parent_ (out_param po))
    as (po' & Hpo' & Hdt & Hpar_o).
  { pose proof (f_equal (λ m, m !! edge_output ed) Hout) as Hl. cbn in Hl.
    rewrite !lookup_fmap, Hpo in Hl. cbn in Hl.
    destruct (outputs h' !! edge_output ed) as [po'|]; [|done].
    cbn in Hl. unfold fixed_part in Hl. exists po'. split; [done|]. naive_solver. }
  assert (∃ pi', inputs h' !! edge_input ed = Some pi' ∧
            inputs_ pi' = inputs_ pi ∧
            parent_ (in_param pi') = parent_ (in_param pi))
    as (pi' & Hpi' & Hins & Hpar_i).
  { pose proof (f_equal (λ m, m !! edge_input ed) Hin) as Hl. cbn in Hl.
    rewrite !lookup_fmap, Hpi in Hl. cbn in Hl.
    destruct (inputs h' !! edge_input ed) as [pi'|]; [|done].
    cbn in Hl. unfold fixed_part in Hl. exists pi'. split; [done|]. naive_solver. }
  exists po', pi', graph. unfold can_accept_type in *.
  rewrite Hins, Hdt, Hpar_o, Hpar_i, Hnodes. done.
Qed.

Lemma edges_valid_invariant ops h h' :
  (∀ e ed, edge_objs h !! e = Some ed → edge_valid h ed) →
  run_ops ops h = Some (tt, h') →
  ∀ e ed, edge_objs h' !! e = Some ed → edge_valid h' ed.
Proof.
  intros Hinit. revert Hinit.
  apply (run_ops_invariant (λ h, ∀ e ed, edge_objs h !! e = Some ed → edge_valid h ed)).
  - intros h1 msg Hv e ed Hed. apply (Hv e ed Hed).
  - intros h1 edge ed po pi Hv _ Hpo Hpi e ed' Hed'. cbn in Hed'.
    apply (edge_valid_unchanged h1).
    + apply unchanged_but_edges_disconnected; [apply unchanged_but_edges_refl|done..].
    + by apply (Hv e).
  - intros h0 r1 h1 output input po pi graph _ Hv _ Hpo Hpi Hacc Hog Hig e ed Hed.
    cbn in Hed. destruct (decide (fresh (dom (edge_objs h1)) = e)) as [<-|Hne].
    + rewrite lookup_insert_eq in Hed. injection Hed as <-.
      eexists _, _, graph. cbn. rewrite !lookup_insert_eq. by repeat split.
    + rewrite lookup_insert_ne in Hed by done.
      apply (edge_valid_unchanged h1).
      * apply unchanged_but_edges_connected;
          [apply unchanged_but_edges_refl|apply fresh_edge_None|done..].
      * by apply (Hv e).
Qed.

(** X5.  In every heap reached from an unconnected one, every edge
    object, and so every edge in a list, joins an output to an input that
    accepts its data type, and the two nodes are in one graph. *)
Theorem reached_edges_valid h :
  reached h →
  (∀ e ed, edge_objs h !! e = Some ed → edge_valid h ed) ∧
  (∀ input e, e ∈ edges_of_input h input →
     ∃ ed, edge_objs h !! e = Some ed ∧ edge_input ed = input ∧ edge_valid h ed) ∧
  (∀ output e, e ∈ edges_of_output h output →
     ∃ ed, edge_objs h !! e = Some ed ∧ edge_output ed = output ∧ edge_valid h ed).
Proof.
  intros Hreached. pose proof (reached_wf h Hreached) as Hwf.
  destruct Hreached as (h0 & ops & (Hobjs & _) & Hrun).
  assert (∀ e ed, edge_objs h !! e = Some ed → edge_valid h ed) as Hvalid.
  { apply (edges_valid_invariant ops h0); [|done].
    intros e ed. by rewrite Hobjs, lookup_empty. }
  split; [done|]. split.
  - intros input e He. destruct (wf_in_edges h Hwf input e He) as (ed & Hed & Hin).
    exists ed. repeat split; try done. by apply (Hvalid e).
  - intros output e He. destruct (wf_out_edges h Hwf output e He) as (ed & Hed & Hout).
    exists ed. repeat split; try done. by apply (Hvalid e).
Qed.

Lemma reached_edges_valid_witness :
  ∃ ed, edge_objs demo_heap_edited !! 4%positive = Some ed ∧
        edge_input ed = 20%positive ∧ edge_valid demo_heap_edited ed.
Proof.
  destruct (reached_edges_valid demo_heap_edited demo_heap_edited_reached)
    as (_ & Hin & _).
  apply (Hin 20%positive 4%positive). vm_compute. apply list_elem_of_here.
Defined.

(** ** Edge lists after a disconnection or a connection *)

Lemma edges_of_input_disconnected h edge ed po pi i :
  inputs h !! edge_input ed = Some pi →
  edges_of_input (disconnected edge ed po pi h) i =
    if decide (i = edge_input ed)
    then filter (λ e, e ≠ edge) (edges_of_input h i)
    else edges_of_input h i.
Proof.
  intros Hpi. unfold edges_of_input, disconnected; cbn.
  destruct (decide (i = edge_input ed)) as [->|Hne].
  - by rewrite lookup_insert_eq, Hpi.
  - by rewrite lookup_insert_ne.
Qed.

Lemma edges_of_output_disconnected h edge ed po pi o :
  outputs h !! edge_output ed = Some po →
  edges_of_output (disconnected edge ed po pi h) o =
    if decide (o = edge_output ed)
    then filter (λ e, e ≠ edge) (edges_of_output h o)
    else edges_of_output h o.
Proof.
  intros Hpo. unfold edges_of_output, disconnected; cbn.
  destruct (decide (o = edge_output ed)) as [->|Hne].
  - by rewrite lookup_insert_eq, Hpo.
  - by rewrite lookup_insert_ne.
Qed.

Lemma edges_of_input_connected h edge output input po pi i :
  inputs h !! input = Some pi →
  edges_of_input (connected edge output input po pi h) i =
    if decide (i = input) then edges_of_input h i ++ [edge] else edges_of_input h i.
Proof.
  intros Hpi. unfold edges_of_input, connected; cbn.
  destruct (decide (i = input)) as [->|Hne].
  - by rewrite lookup_insert_eq, Hpi.
  - by rewrite lookup_insert_ne.
Qed.

Lemma edges_of_output_connected h edge output input po pi o :
  outputs h !! output = Some po →
  edges_of_output (connected edge output input po pi h) o =
    if decide (o = output) then edges_of_output h o ++ [edge] else edges_of_output h o.
Proof.
  intros Hpo. unfold edges_of_output, connected; cbn.
  destruct (decide (o = output)) as [->|Hne].
  - by rewrite lookup_insert_eq, Hpo.
  - by rewrite lookup_insert_ne.
Qed.

Lemma filter_ne_absent (e : positive) (l : list positive) :
  e ∉ l → filter (λ x, x ≠ e) l = l.
Proof.
  induction l as [|x l IH]; [done|].
  intros Hnot. apply not_elem_of_cons in Hnot as [Hne Hnot].
  rewrite filter_cons_True by done. by rewrite IH.
Qed.

Lemma not_elem_of_filter_ne (e : positive) (l : list positive) :
  e ∉ filter (λ x, x ≠ e) l.
Proof. rewrite list_elem_of_filter. naive_solver. Qed.

(** ** No edge twice *)

Lemma outputs_NoDup_invariant ops h h' :
  wf h →
  (∀ o, NoDup (edges_of_output h o)) →
  run_ops ops h = Some (tt, h') →
  ∀ o, NoDup (edges_of_output h' o).
Proof.
  intros Hwf Hnd Hrun.
  cut (wf h' ∧ ∀ o, NoDup (edges_of_output h' o)); [by intros [_ ?]|].
  revert Hrun.
  apply (run_ops_invariant (λ h, wf h ∧ ∀ o, NoDup (edges_of_output h o))).
  - intros h1 msg [Hwf1 Hnd1]. split; [by apply wf_set_trace|done].
  - intros h1 edge ed po pi [Hwf1 Hnd1] Hed Hpo Hpi.
    split; [by apply wf_disconnected|]. intros o.
    rewrite edges_of_output_disconnected by done.
    case_decide; [|done]. by apply NoDup_filter.
  - intros h0 r1 h1 output input po pi graph [Hwf0 _] [Hwf1 Hnd1] Hdfno Hpo Hpi _ _ _.
    split.
    + apply wf_connected; try done; [apply fresh_edge_None|].
      by apply (DisconnectForNewOutput_leaves_none h0 input r1 h1).
    + intros o. rewrite edges_of_output_connected by done.
      case_decide; [|done]. apply NoDup_app. split; [done|]. split; [|apply NoDup_singleton].
      intros e He ->%list_elem_of_singleton.
      destruct (wf_out_edges h1 Hwf1 o _ He) as (ed & Hed & _).
      by rewrite fresh_edge_None in Hed.
  - done.
Qed.

Lemma unconnected_outputs_NoDup h o : unconnected h → NoDup (edges_of_output h o).
Proof.
  intros (_ & _ & Hout). unfold edges_of_output.
  destruct (outputs h !! o) as [q|] eqn:Hq; cbn; [|apply NoDup_nil_2].
  rewrite (Hout o q Hq). apply NoDup_nil_2.
Qed.

(** X6.  In every heap reached from an unconnected one an input has at
    most one edge; when [IsConnected] holds of an input, its one edge is
    an edge object that leads to this input from an output which has the
    edge in its own list and is connected as well. *)
Theorem reached_input_single_edge h input pi :
  reached h →
  inputs h !! input = Some pi →
  length (edges_ (in_param pi)) ≤ 1 ∧
  (IsConnected (in_param pi) = true →
   ∃ e ed po,
     edges_ (in_param pi) = [e] ∧
     edge_objs h !! e = Some ed ∧
     edge_input ed = input ∧
     outputs h !! edge_output ed = Some po ∧
     e ∈ edges_ (out_param po) ∧
     IsConnected (out_param po) = true).
Proof.
  intros Hwf%reached_wf Hpi.
  assert (edges_of_input h input = edges_ (in_param pi)) as Hof.
  { unfold edges_of_input. by rewrite Hpi. }
  pose proof (wf_single h Hwf input) as Hlen. rewrite Hof in Hlen.
  split; [done|]. unfold IsConnected.
  destruct (edges_ (in_param pi)) as [|e rest] eqn:Hes; [done|]. intros _.
  destruct rest as [|? ?]; [|cbn in Hlen; lia].
  destruct (wf_in_edges h Hwf input e) as (ed & Hed & Hin).
  { rewrite Hof. apply list_elem_of_here. }
  destruct (wf_edge_ends h Hwf e ed Hed) as [[po Hpo] _].
  assert (e ∈ edges_ (out_param po)) as Hout.
  { pose proof (wf_two_sided h Hwf e ed Hed) as Hts.
    unfold edges_of_output in Hts. rewrite Hpo, Hin, Hof in Hts. cbn in Hts.
    apply Hts, list_elem_of_here. }
  exists e, ed, po. repeat split; try done.
  by destruct (edges_ (out_param po)); [apply elem_of_nil in Hout|].
Qed.

Lemma reached_input_single_edge_witness :
  length (edges_ (set_time (-1) (set_edges [4%positive] (demo_param 2)))) ≤ 1 ∧
  (IsConnected (set_time (-1) (set_edges [4%positive] (demo_param 2))) = true →
   ∃ e ed po,
     edges_ (set_time (-1) (set_edges [4%positive] (demo_param 2))) = [e] ∧
     edge_objs demo_heap_edited !! e = Some ed ∧
     edge_input ed = 20%positive ∧
     outputs demo_heap_edited !! edge_output ed = Some po ∧
     e ∈ edges_ (out_param po) ∧
     IsConnected (out_param po) = true).
Proof.
  apply (reached_input_single_edge demo_heap_edited 20
           (mkInput (set_time (-1) (set_edges [4%positive] (demo_param 2)))
              [kInt; kFloat])).
  - apply demo_heap_edited_reached.
  - vm_compute. reflexivity.
Defined.

(** X7.  In every heap reached from an unconnected one no edge is twice
    in an output's list, and two edges in lists that join the same output
    and input are one edge: there are no duplicate connections. *)
Theorem reached_no_duplicate_edges h :
  reached h →
  (∀ output, NoDup (edges_of_output h output)) ∧
  (∀ output e1 e2 ed1 ed2,
     e1 ∈ edges_of_output h output → e2 ∈ edges_of_output h output →
     edge_objs h !! e1 = Some ed1 → edge_objs h !! e2 = Some ed2 →
     edge_input ed1 = edge_input ed2 →
     e1 = e2).
Proof.
  intros Hreached. pose proof (reached_wf h Hreached) as Hwf. split.
  - destruct Hreached as (h0 & ops & Hinit & Hrun).
    apply (outputs_NoDup_invariant ops h0); try done.
    + by apply wf_unconnected.
    + intros o. by apply unconnected_outputs_NoDup.
  - intros output e1 e2 ed1 ed2 He1 He2 Hed1 Hed2 Hsame.
    destruct (wf_out_edges h Hwf output e1 He1) as (ed1' & Hed1' & Ho1).
    destruct (wf_out_edges h Hwf output e2 He2) as (ed2' & Hed2' & Ho2).
    assert (ed1' = ed1) as -> by congruence.
    assert (ed2' = ed2) as -> by congruence.
    rewrite <- Ho1 in He1. rewrite <- Ho2 in He2.
    apply (wf_two_sided h Hwf e1 ed1 Hed1) in He1.
    apply (wf_two_sided h Hwf e2 ed2 Hed2) in He2.
    rewrite <- Hsame in He2.
    pose proof (wf_single h Hwf (edge_input ed1)) as Hlen.
    destruct (edges_of_input h (edge_input ed1)) as [|x [|y rest]];
      [by apply elem_of_nil in He1| |cbn in Hlen; lia].
    apply list_elem_of_singleton in He1, He2. congruence.
Qed.

Lemma reached_no_duplicate_edges_witness :
  NoDup (edges_of_output demo_heap_edited 10).
Proof.
  apply (proj1 (reached_no_duplicate_edges demo_heap_edited demo_heap_edited_reached)).
Defined.

(** ** When ConnectEdge makes an edge *)

(** X8.  On a well-formed heap, for an output and an input whose nodes
    have a graph, [ConnectEdge] returns, and it returns an edge exactly
    when the input accepts the output's data type and both nodes have the
    same graph; whether the input was connected before plays no part. *)
Theorem ConnectEdge_succeeds_iff h output input po pi output_graph input_graph :
  wf h →
  outputs h !! output = Some po →
  inputs h !! input = Some pi →
  nodes h !! parent_ (out_param po) = Some output_graph →
  nodes h !! parent_ (in_param pi) = Some input_graph →
  ∃ r h',
    ConnectEdge output input h = Some (r, h') ∧
    (is_Some r ↔
       can_accept_type pi (data_type_ po) = true ∧ output_graph = input_graph).
Proof.
  intros Hwf Hpo Hpi Hog Hig.
  destruct (DisconnectForNewOutput_wf_objects h output input po pi Hwf Hpo Hpi)
    as (r1 & h1 & po1 & pi1 & Hdfno & Hpo1 & Hpi1 & Hnil & Hdt & Hpo_par & Hins
        & Hpi_par & Hnodes & _).
  assert (has_edge_from (edges_ (in_param pi1)) output h1 = Some (false, h1)) as Hscan.
  { by rewrite Hnil. }
  pose proof (ConnectEdge_run h output input r1 h1 pi1 po1 Hdfno Hpi1 Hscan Hpo1) as Hrun.
  unfold can_accept_type in *. rewrite Hins, Hdt in Hrun.
  rewrite Hpo_par, Hpi_par, Hnodes, Hog, Hig in Hrun.
  destruct (AreDataTypesCompatible_list (data_type_ po) (inputs_ pi)).
  - destruct (decide (output_graph = input_graph)) as [Heq|Hne].
    + eexists _, _. split; [exact Hrun|]. split; [done|]. intros _. by eexists.
    + eexists _, _. split; [exact Hrun|]. split; [by intros [? ?]|]. by intros [_ ?].
  - eexists _, _. split; [exact Hrun|]. split; [by intros [? ?]|]. by intros [? _].
Qed.

Lemma ConnectEdge_succeeds_iff_witness :
  ∃ r h',
    ConnectEdge 12 20 demo_heap_connected = Some (r, h') ∧
    (is_Some r ↔
       can_accept_type (mkInput (set_edges [1%positive] (demo_param 2)) [kInt; kFloat])
         (data_type_ (mkOutput (demo_param 3) kFloat)) = true ∧
       200%positive = 100%positive).
Proof.
  apply (ConnectEdge_succeeds_iff demo_heap_connected 12 20
           (mkOutput (demo_param 3) kFloat)
           (mkInput (set_edges [1%positive] (demo_param 2)) [kInt; kFloat])).
  - apply demo_heap_connected_wf.
  - reflexivity.
  - reflexivity.
  - reflexivity.
  - reflexivity.
Defined.

(** ** Connecting and disconnecting again *)

(** X9.  On a well-formed heap, when the input has no edge and the
    connection is legal, [ConnectEdge] followed by [DisconnectEdge] of
    the edge it returned gives every input and every output the edge list
    it had before. *)
Theorem ConnectEdge_DisconnectEdge_roundtrip h output input po pi graph :
  wf h →
  outputs h !! output = Some po →
  inputs h !! input = Some pi →
  edges_ (in_param pi) = [] →
  can_accept_type pi (data_type_ po) = true →
  nodes h !! parent_ (out_param po) = Some graph →
  nodes h !! parent_ (in_param pi) = Some graph →
  ∃ edge h1 h2,
    ConnectEdge output input h = Some (Some edge, h1) ∧
    DisconnectEdge edge h1 = Some (tt, h2) ∧
    (∀ i, edges_of_input h2 i = edges_of_input h i) ∧
    (∀ o, edges_of_output h2 o = edges_of_output h o).
Proof.
  intros Hwf Hpo Hpi Hnil Hacc Hog Hig.
  pose proof (DisconnectForNewOutput_run_nil h input pi Hpi Hnil) as Hdfno.
  assert (has_edge_from (edges_ (in_param pi)) output h = Some (false, h)) as Hscan.
  { by rewrite Hnil. }
  pose proof (ConnectEdge_run h output input None h pi po Hdfno Hpi Hscan Hpo) as Hrun.
  rewrite Hacc, Hog, Hig in Hrun. rewrite decide_True in Hrun by done.
  cbn zeta in Hrun.
  set (edge := fresh (dom (edge_objs h))) in *.
  set (h1 := connected edge output input po pi h) in *.
  assert (edge_objs h1 !! edge = Some (mkEdge output input)) as Hed.
  { apply lookup_insert_eq. }
  assert (outputs h1 !! output =
            Some (mkOutput (append edge (out_param po)) (data_type_ po))) as Hpo1.
  { apply lookup_insert_eq. }
  assert (inputs h1 !! input =
            Some (mkInput (ClearCachedValue (append edge (in_param pi))) (inputs_ pi)))
    as Hpi1.
  { apply lookup_insert_eq. }
  eexists edge, h1, _. split; [exact Hrun|].
  split; [exact (DisconnectEdge_run h1 edge _ _ _ Hed Hpo1 Hpi1)|]. split.
  - intros i. rewrite edges_of_input_disconnected by exact Hpi1. cbn.
    unfold h1. rewrite edges_of_input_connected by done.
    destruct (decide (i = input)) as [->|Hne]; [|done].
    unfold edges_of_input. rewrite Hpi. cbn. rewrite Hnil. cbn.
    by rewrite decide_False by (intros Hn; by apply Hn).
  - intros o. rewrite edges_of_output_disconnected by exact Hpo1. cbn.
    unfold h1. rewrite edges_of_output_connected by done.
    destruct (decide (o = output)) as [->|Hne]; [|done].
    rewrite filter_app. cbn. rewrite decide_False by (intros Hn; by apply Hn).
    rewrite app_nil_r. apply filter_ne_absent. intros Hin.
    destruct (wf_out_edges h Hwf output edge Hin) as (ed & Hed' & _).
    unfold edge in Hed'. by rewrite fresh_edge_None in Hed'.
Qed.

Lemma ConnectEdge_DisconnectEdge_roundtrip_witness :
  ∃ edge h1 h2,
    ConnectEdge 13 21 demo_heap_connected = Some (Some edge, h1) ∧
    DisconnectEdge edge h1 = Some (tt, h2) ∧
    (∀ i, edges_of_input h2 i = edges_of_input demo_heap_connected i) ∧
    (∀ o, edges_of_output h2 o = edges_of_output demo_heap_connected o).
Proof.
  apply (ConnectEdge_DisconnectEdge_roundtrip demo_heap_connected 13 21
           (mkOutput (demo_param 1) kInt) (mkInput (demo_param 2) [kInt; kFloat]) 100).
  - apply demo_heap_connected_wf.
  - reflexivity.
  - reflexivity.
  - reflexivity.
  - reflexivity.
  - reflexivity.
  - reflexivity.
Defined.

(** X10.  [DisconnectEdge] on an edge whose ends are objects returns; a
    second [DisconnectEdge] on the same edge returns as well and changes
    no input, no output and no edge object, yet it takes the locks and
    emits the edge-removed signal once more. *)
Theorem DisconnectEdge_twice h edge ed po pi :
  edge_objs h !! edge = Some ed →
  outputs h !! edge_output ed = Some po →
  inputs h !! edge_input ed = Some pi →
  ∃ h1 h2,
    DisconnectEdge edge h = Some (tt, h1) ∧
    DisconnectEdge edge h1 = Some (tt, h2) ∧
    inputs h2 = inputs h1 ∧ outputs h2 = outputs h1 ∧
    edge_objs h2 = edge_objs h1 ∧ nodes h2 = nodes h1 ∧
    trace h2 = trace h1 ++
      [Lock (parent_ (out_param po)); Lock (parent_ (in_param pi));
       Unlock (parent_ (out_param po)); Unlock (parent_ (in_param pi));
       EdgeRemoved (edge_input ed) edge].
Proof.
  intros Hed Hpo Hpi.
  set (h1 := disconnected edge ed po pi h).
  assert (outputs h1 !! edge_output ed =
            Some (mkOutput (removeAll edge (out_param po)) (data_type_ po))) as Hpo1.
  { apply lookup_insert_eq. }
  assert (inputs h1 !! edge_input ed =
            Some (mkInput (ClearCachedValue (removeAll edge (in_param pi))) (inputs_ pi)))
    as Hpi1.
  { apply lookup_insert_eq. }
  eexists h1, _. split; [by apply DisconnectEdge_run|].
  split; [exact (DisconnectEdge_run h1 edge ed _ _ Hed Hpo1 Hpi1)|].
  unfold disconnected, h1; cbn. rewrite !insert_insert_eq.
  unfold removeAll, set_edges, ClearCachedValue, set_time; cbn.
  rewrite !(filter_ne_absent edge (filter _ _)) by apply not_elem_of_filter_ne.
  done.
Qed.

Lemma DisconnectEdge_twice_witness :
  ∃ h1 h2,
    DisconnectEdge 1 demo_heap_connected = Some (tt, h1) ∧
    DisconnectEdge 1 h1 = Some (tt, h2) ∧
    inputs h2 = inputs h1 ∧ outputs h2 = outputs h1 ∧
    edge_objs h2 = edge_objs h1 ∧ nodes h2 = nodes h1 ∧
    trace h2 = trace h1 ++
      [Lock 1; Lock 2; Unlock 1; Unlock 2; EdgeRemoved 20 1].
Proof.
  apply (DisconnectEdge_twice demo_heap_connected 1 (mkEdge 10 20)
           (mkOutput (set_edges [1%positive] (demo_param 1)) kFloat)
           (mkInput (set_edges [1%positive] (demo_param 2)) [kInt; kFloat]));
    reflexivity.
Defined.

(** ** Disconnecting a connected pair *)

Lemma DisconnectEdge_loop_run_first es input h edge :
  (∀ e, e ∈ es →
     ∃ ed, edge_objs h !! e = Some ed ∧ (edge_input ed = input → e = edge)) →
  edge ∈ es →
  (∃ ed, edge_objs h !! edge = Some ed ∧ edge_input ed = input) →
  DisconnectEdge_loop es input h = DisconnectEdge edge h.
Proof.
  intros Hes Hin (ed0 & Hed0 & Hin0).
  induction es as [|e es IH]; [by apply elem_of_nil in Hin|]. cbn.
  destruct (Hes e) as (ed & Hed & Honly); [apply list_elem_of_here|].
  rewrite (bind_run _ _ _ _ _ (get_edge_run _ _ _ Hed)).
  destruct (decide (edge_input ed = input)) as [Heq|Hne].
  - by rewrite (Honly Heq).
  - apply IH.
    + intros e' He'. apply Hes. by apply list_elem_of_further.
    + apply elem_of_cons in Hin as [->|Hin]; [|done]. congruence.
Qed.

Lemma wf_edge_to_input_unique h output input e1 e2 ed1 ed2 :
  wf h →
  e1 ∈ edges_of_output h output → e2 ∈ edges_of_output h output →
  edge_objs h !! e1 = Some ed1 → edge_objs h !! e2 = Some ed2 →
  edge_input ed1 = input → edge_input ed2 = input →
  e1 = e2 ∧ edges_of_input h input = [e1].
Proof.
  intros Hwf He1 He2 Hed1 Hed2 Hin1 Hin2.
  destruct (wf_out_edges h Hwf output e1 He1) as (ed1' & Hed1' & Ho1).
  destruct (wf_out_edges h Hwf output e2 He2) as (ed2' & Hed2' & Ho2).
  assert (ed1' = ed1) as -> by congruence.
  assert (ed2' = ed2) as -> by congruence.
  rewrite <- Ho1 in He1. rewrite <- Ho2 in He2.
  apply (wf_two_sided h Hwf e1 ed1 Hed1) in He1.
  apply (wf_two_sided h Hwf e2 ed2 Hed2) in He2.
  rewrite Hin1 in He1. rewrite Hin2 in He2.
  pose proof (wf_single h Hwf input) as Hlen.
  destruct (edges_of_input h input) as [|x [|y rest]];
    [by apply elem_of_nil in He1| |cbn in Hlen; lia].
  apply list_elem_of_singleton in He1, He2. by subst.
Qed.

(** X11.  On a well-formed heap, when the output's list holds an edge to
    the input, [DisconnectEdge] on the output and the input does what
    [DisconnectEdge] on that edge does; afterwards the input has no edge
    and the output's list holds no edge to the input. *)
Theorem DisconnectEdge_between_connected h output input po edge ed :
  wf h →
  outputs h !! output = Some po →
  edge ∈ edges_ (out_param po) →
  edge_objs h !! edge = Some ed →
  edge_input ed = input →
  ∃ h',
    DisconnectEdge_between output input h = Some (tt, h') ∧
    DisconnectEdge edge h = Some (tt, h') ∧
    edges_of_input h' input = [] ∧
    (∀ e ed', e ∈ edges_of_output h' output →
       edge_objs h' !! e = Some ed' → edge_input ed' ≠ input).
Proof.
  intros Hwf Hpo Hin Hed Hinp.
  assert (edges_of_output h output = edges_ (out_param po)) as Hof.
  { unfold edges_of_output. by rewrite Hpo. }
  assert (edge ∈ edges_of_output h output) as Hin' by by rewrite Hof.
  destruct (wf_out_edges h Hwf output edge Hin') as (ed' & Hed' & Hout).
  assert (ed' = ed) as -> by congruence.
  destruct (wf_edge_ends h Hwf edge ed Hed) as [_ [pi Hpi]].
  rewrite <- Hout in Hpo.
  pose proof (DisconnectEdge_run h edge ed po pi Hed Hpo Hpi) as Hrun.
  exists (disconnected edge ed po pi h). split; [|split; [done|split]].
  - unfold DisconnectEdge_between. rewrite Hout in Hpo.
    rewrite (bind_run _ _ _ _ _ (get_output_run _ _ _ Hpo)). rewrite <- Hrun.
    apply DisconnectEdge_loop_run_first; [|done|by exists ed].
    intros e He. rewrite <- Hof in He.
    destruct (wf_out_edges h Hwf output e He) as (ede & Hede & _).
    exists ede. split; [done|]. intros Hto.
    by destruct (wf_edge_to_input_unique h output input e edge ede ed).
  - rewrite edges_of_input_disconnected by done. rewrite Hinp, decide_True by done.
    destruct (wf_edge_to_input_unique h output input edge edge ed ed) as [_ ->];
      try done.
    cbn. by rewrite decide_False by (intros Hn; by apply Hn).
  - intros e ede He Hede Hto. cbn in Hede.
    apply elem_of_edges_disconnected_out in He as [He Hnot]; [|done].
    destruct (wf_edge_to_input_unique h output input e edge ede ed) as [-> _];
      try done.
    apply Hnot. by rewrite Hout.
Qed.

Lemma DisconnectEdge_between_connected_witness :
  ∃ h',
    DisconnectEdge_between 10 20 demo_heap_connected = Some (tt, h') ∧
    DisconnectEdge 1 demo_heap_connected = Some (tt, h') ∧
    edges_of_input h' 20 = [] ∧
    (∀ e ed', e ∈ edges_of_output h' 10 →
       edge_objs h' !! e = Some ed' → edge_input ed' ≠ 20%positive).
Proof.
  apply (DisconnectEdge_between_connected demo_heap_connected 10 20
           (mkOutput (set_edges [1%positive] (demo_param 1)) kFloat) 1 (mkEdge 10 20)).
  - apply demo_heap_connected_wf.
  - reflexivity.
  - apply list_elem_of_here.
  - reflexivity.
  - reflexivity.
Defined.

(** X12.  On a well-formed heap [DisconnectForNewOutput] returns and
    leaves a well-formed heap in which the input has no edge; it returns
    no edge exactly when the input had none, and then the heap is as it
    was; otherwise it returns the input's one edge, which is then gone
    from its output's list too. *)
Theorem DisconnectForNewOutput_spec h input pi :
  wf h →
  inputs h !! input = Some pi →
  ∃ r h',
    DisconnectForNewOutput input h = Some (r, h') ∧
    wf h' ∧
    edges_of_input h' input = [] ∧
    (r = None ↔ edges_ (in_param pi) = []) ∧
    (r = None → h' = h) ∧
    (∀ e, r = Some e →
       edges_ (in_param pi) = [e] ∧
       ∃ ed, edge_objs h !! e = Some ed ∧ edge_input ed = input ∧
             (e ∉ edges_of_output h' (edge_output ed))).
Proof.
  intros Hwf Hpi.
  destruct (DisconnectForNewOutput_wf h input pi Hwf Hpi)
    as [[Hnil Hrun]|(edge & ed & po & Hes & Hed & Hin & Hpo & Hrun)].
  - exists None, h. split; [done|]. split; [done|]. split.
    { unfold edges_of_input. rewrite Hpi. cbn. exact Hnil. }
    split; [done|]. split; [done|]. by intros e [=].
  - exists (Some edge), (disconnected edge ed po pi h).
    rewrite <- Hin in Hpi.
    split; [done|]. split; [by apply wf_disconnected|]. split; [|split; [|split]].
    + rewrite edges_of_input_disconnected by done. rewrite Hin, decide_True by done.
      unfold edges_of_input. rewrite <- Hin, Hpi. cbn. rewrite Hes. cbn.
      by rewrite decide_False by (intros Hn; by apply Hn).
    + split; [done|]. by rewrite Hes.
    + done.
    + intros e [= <-]. split; [done|]. exists ed. repeat split; try done.
      rewrite elem_of_edges_disconnected_out by done. naive_solver.
Qed.

Lemma DisconnectForNewOutput_spec_witness :
  ∃ r h',
    DisconnectForNewOutput 20 demo_heap_connected = Some (r, h') ∧
    wf h' ∧
    edges_of_input h' 20 = [] ∧
    (r = None ↔ edges_ (in_param
        (mkInput (set_edges [1%positive] (demo_param 2)) [kInt; kFloat])) = []) ∧
    (r = None → h' = demo_heap_connected) ∧
    (∀ e, r = Some e →
       edges_ (in_param
         (mkInput (set_edges [1%positive] (demo_param 2)) [kInt; kFloat])) = [e] ∧
       ∃ ed, edge_objs demo_heap_connected !! e = Some ed ∧
             edge_input ed = 20%positive ∧
             (e ∉ edges_of_output h' (edge_output ed))).
Proof.
  apply (DisconnectForNewOutput_spec demo_heap_connected 20
           (mkInput (set_edges [1%positive] (demo_param 2)) [kInt; kFloat])).
  - apply demo_heap_connected_wf.
  - reflexivity.
Defined.

(** ** Locks and signals *)

Lemma occurrences_app ev t1 t2 :
  occurrences ev (t1 ++ t2) = occurrences ev t1 + occurrences ev t2.
Proof. unfold occurrences. by rewrite filter_app, length_app. Qed.

Lemma occurrences_lock_bracket n a b ev :
  (∀ m, ev ≠ Lock m) → (∀ m, ev ≠ Unlock m) →
  occurrences (Lock n) [Lock a; Lock b; Unlock a; Unlock b; ev] =
  occurrences (Unlock n) [Lock a; Lock b; Unlock a; Unlock b; ev].
Proof.
  intros Hl Hu. unfold occurrences. rewrite !filter_cons, !filter_nil.
  pose proof (Hl n). pose proof (Hu n).
  repeat case_decide; simplify_eq; cbn; done.
Qed.

(** X13.  Any sequence of [ConnectEdge] and [DisconnectEdge] calls only
    adds to the trace, and in what it adds every node is unlocked as
    often as it is locked: no call returns with a lock still held. *)
Theorem edits_release_locks ops h h' :
  run_ops ops h = Some (tt, h') →
  ∃ t, trace h' = trace h ++ t ∧
       ∀ node, occurrences (Lock node) t = occurrences (Unlock node) t.
Proof.
  apply (run_ops_invariant
           (λ h', ∃ t, trace h' = trace h ++ t ∧
                       ∀ n, occurrences (Lock n) t = occurrences (Unlock n) t)).
  - intros h1 msg (t & Ht & Hbal). exists (t ++ [qWarning msg]). cbn.
    rewrite Ht, (assoc_L (++)). split; [done|]. intros n.
    rewrite !occurrences_app, Hbal. unfold occurrences.
    rewrite !filter_cons, !filter_nil. by repeat case_decide.
  - intros h1 edge ed po pi (t & Ht & Hbal) _ _ _. eexists (t ++ _). cbn.
    rewrite Ht, (assoc_L (++)). split; [done|]. intros n.
    rewrite !occurrences_app, Hbal. f_equal. by apply occurrences_lock_bracket.
  - intros h0 r1 h1 output input po pi graph _ (t & Ht & Hbal) _ _ _ _ _ _.
    eexists (t ++ _). cbn.
    rewrite Ht, (assoc_L (++)). split; [done|]. intros n.
    rewrite !occurrences_app, Hbal. f_equal. by apply occurrences_lock_bracket.
  - exists []. by rewrite app_nil_r.
Qed.

Lemma edits_release_locks_witness :
  ∃ t, trace demo_heap_edited = trace demo_heap ++ t ∧
       ∀ node, occurrences (Lock node) t = occurrences (Unlock node) t.
Proof.
  apply (edits_release_locks demo_ops). vm_compute. reflexivity.
Defined.

(** X14.  A call of [ConnectEdge] that returns only adds to the trace,
    and what it adds holds exactly one edge-added signal, for the input
    and the returned edge, when an edge is returned, and none when no
    edge is returned; the signal is the last event, after the unlocks. *)
Theorem ConnectEdge_signals h output input r h' :
  ConnectEdge output input h = Some (r, h') →
  ∃ t, trace h' = trace h ++ t ∧
       filter is_EdgeAdded t =
         match r with Some edge => [EdgeAdded input edge] | None => [] end ∧
       (∀ edge, r = Some edge →
          ∃ t0 a b, t = t0 ++ [Unlock a; Unlock b; EdgeAdded input edge]).
Proof.
  intros (r1 & h1 & pi & Hdfno & Hpi & Hcases)%ConnectEdge_inv_cases.
  assert (∃ t1, trace h1 = trace h ++ t1 ∧ filter is_EdgeAdded t1 = [])
    as (t1 & Ht1 & Hnone).
  { apply DisconnectForNewOutput_inv in Hdfno
      as (pi0 & _ & [(_ & _ & ->)|(e & rest & ed & po & pi' & _ & _ & _ & _ & _ & ->)]).
    - exists []. by rewrite app_nil_r.
    - eexists. split; [reflexivity|]. done. }
  destruct Hcases as [[-> ->]|[(po & _ & _ & -> & ->)|[Hother|Hnew]]].
  - exists t1. repeat split; try done.
  - eexists (t1 ++ _). cbn. rewrite Ht1, (assoc_L (++)). split; [done|].
    rewrite filter_app, Hnone. by split.
  - destruct Hother as (po & og & ig & _ & _ & _ & _ & _ & -> & ->).
    eexists (t1 ++ _). cbn. rewrite Ht1, (assoc_L (++)). split; [done|].
    rewrite filter_app, Hnone. by split.
  - destruct Hnew as (po & graph & _ & _ & _ & _ & -> & ->).
    eexists (t1 ++ _). cbn. rewrite Ht1, (assoc_L (++)). split; [done|].
    rewrite filter_app, Hnone. split; [done|].
    intros edge [= <-].
    exists (t1 ++ [Lock (parent_ (out_param po)); Lock (parent_ (in_param pi))]),
      (parent_ (out_param po)), (parent_ (in_param pi)).
    by rewrite <- (assoc_L (++)).
Qed.

Lemma ConnectEdge_signals_witness :
  ∃ t, trace demo_heap_reconnected = trace demo_heap_connected ++ t ∧
       filter is_EdgeAdded t =
         match Some 2%positive with
         | Some edge => [EdgeAdded 20 edge] | None => []
         end ∧
       (∀ edge, Some 2%positive = Some edge →
          ∃ t0 a b, t = t0 ++ [Unlock a; Unlock b; EdgeAdded 20 edge]).
Proof.
  apply (ConnectEdge_signals demo_heap_connected 10 20 (Some 2%positive)
           demo_heap_reconnected).
  vm_compute. reflexivity.
Defined.

(** ** More on decoders *)

Section Decoder_facts.
Variable QFileInfo_exists : string → bool.
Variable Clear : Footage → Footage.
Variable OIIODecoder : Decoder.
Variable FFmpegDecoder : Decoder.

Lemma isEmpty_true (s : string) : isEmpty s = true ↔ s = EmptyString.
Proof. destruct s; cbn; split; congruence. Qed.

(** X15.  [CreateFromID] returns only a decoder of the list whose
    identifier is the requested, non-empty one, the still-image decoder
    first; it returns nothing exactly when the identifier is empty or no
    decoder of the list has it. *)
Theorem CreateFromID_spec id :
  (∀ d, CreateFromID OIIODecoder FFmpegDecoder id = Some d →
        decoder_id d = id ∧ isEmpty id = false ∧
        d ∈ ReceiveListOfAllDecoders OIIODecoder FFmpegDecoder ∧
        (decoder_id OIIODecoder = id → d = OIIODecoder)) ∧
  (CreateFromID OIIODecoder FFmpegDecoder id = None ↔
     isEmpty id = true ∨
     ∀ d, d ∈ ReceiveListOfAllDecoders OIIODecoder FFmpegDecoder → decoder_id d ≠ id).
Proof.
  unfold CreateFromID, ReceiveListOfAllDecoders. destruct (isEmpty id) eqn:Hid.
  { split; [done|]. split; auto. }
  cbn. destruct (bool_decide_reflect (decoder_id OIIODecoder = id)) as [Ho|Ho].
  { split.
    - intros d [= <-]. repeat split; try done. apply list_elem_of_here.
    - split; [done|]. intros [?|Hnone]; [done|].
      destruct (Hnone OIIODecoder); [apply list_elem_of_here|done]. }
  destruct (bool_decide_reflect (decoder_id FFmpegDecoder = id)) as [Hf|Hf].
  { split.
    - intros d [= <-]. repeat split; try done.
      apply list_elem_of_further, list_elem_of_here.
    - split; [done|]. intros [?|Hnone]; [done|].
      destruct (Hnone FFmpegDecoder); [|done].
      apply list_elem_of_further, list_elem_of_here. }
  split; [done|]. split; [|done]. intros _. right.
  intros d [->|[->|?%elem_of_nil]%elem_of_cons]%elem_of_cons; done.
Qed.

(** X16.  When [ProbeMedia] returns true, the footage is Ready and its
    decoder identifier is that of the still-image decoder if that one
    accepted the cleared footage, and else that of the generic decoder,
    which then accepted what the first left; when it returns false, the
    footage is either untouched (empty name or missing file) or Invalid
    with an empty decoder identifier, both decoders having rejected. *)
Theorem ProbeMedia_result f :
  let r := ProbeMedia QFileInfo_exists Clear OIIODecoder FFmpegDecoder f in
  let first := Probe OIIODecoder (Clear f) in
  let second := Probe FFmpegDecoder (snd first) in
  (fst r = true →
     isEmpty (filename_ f) = false ∧ QFileInfo_exists (filename_ f) = true ∧
     status_ (snd r) = kReady ∧
     ((fst first = true ∧ decoder_ (snd r) = decoder_id OIIODecoder) ∨
      (fst first = false ∧ fst second = true ∧
       decoder_ (snd r) = decoder_id FFmpegDecoder))) ∧
  (fst r = false →
     ((isEmpty (filename_ f) = true ∨ QFileInfo_exists (filename_ f) = false) ∧
      snd r = f) ∨
     (fst first = false ∧ fst second = false ∧
      status_ (snd r) = kInvalid ∧ decoder_ (snd r) = EmptyString)).
Proof.
  cbn zeta. unfold ProbeMedia, ReceiveListOfAllDecoders.
  destruct (isEmpty (filename_ f)); cbn; [split; [done|auto]|].
  destruct (QFileInfo_exists (filename_ f)); cbn; [|split; [done|auto]].
  destruct (Probe OIIODecoder (Clear f)) as [[] f1]; cbn.
  { split; [|done]. intros _. repeat split. by left. }
  destruct (Probe FFmpegDecoder f1) as [[] f2]; cbn.
  { split; [|done]. intros _. repeat split. by right. }
  split; [done|]. intros _. by right.
Qed.

(** X17.  When the two decoders have different, non-empty identifiers,
    the identifier that a successful [ProbeMedia] records gives back,
    through [CreateFromID], the decoder that accepted the file. *)
Theorem ProbeMedia_CreateFromID f f' :
  decoder_id OIIODecoder ≠ decoder_id FFmpegDecoder →
  isEmpty (decoder_id OIIODecoder) = false →
  isEmpty (decoder_id FFmpegDecoder) = false →
  ProbeMedia QFileInfo_exists Clear OIIODecoder FFmpegDecoder f = (true, f') →
  ∃ d, CreateFromID OIIODecoder FFmpegDecoder (decoder_ f') = Some d ∧
       decoder_id d = decoder_ f' ∧
       ((d = OIIODecoder ∧ fst (Probe OIIODecoder (Clear f)) = true) ∨
        (d = FFmpegDecoder ∧ fst (Probe OIIODecoder (Clear f)) = false ∧
         fst (Probe FFmpegDecoder (snd (Probe OIIODecoder (Clear f)))) = true)).
Proof.
  intros Hdiff Ho Hf. unfold ProbeMedia, ReceiveListOfAllDecoders.
  destruct (isEmpty (filename_ f)); cbn; [done|].
  destruct (QFileInfo_exists (filename_ f)); cbn; [|done].
  destruct (Probe OIIODecoder (Clear f)) as [[] f1]; cbn.
  - intros [= <-]. exists OIIODecoder. unfold CreateFromID, ReceiveListOfAllDecoders.
    cbn. rewrite Ho. cbn. rewrite bool_decide_eq_true_2 by done.
    split; [done|]. split; [done|]. by left.
  - destruct (Probe FFmpegDecoder f1) as [[] f2]; cbn; [|done].
    intros [= <-]. exists FFmpegDecoder. unfold CreateFromID, ReceiveListOfAllDecoders.
    cbn. rewrite Hf. cbn. rewrite bool_decide_eq_false_2 by done.
    rewrite bool_decide_eq_true_2 by done.
    split; [done|]. split; [done|]. by right.
Qed.
End Decoder_facts.

Lemma ProbeMedia_CreateFromID_witness :
  ∃ d, CreateFromID demo_oiio demo_ffmpeg
         (decoder_ (set_decoder "ffmpeg"
            (set_status kReady (demo_Clear (demo_footage "clip.mov"))))) = Some d ∧
       decoder_id d =
         decoder_ (set_decoder "ffmpeg"
            (set_status kReady (demo_Clear (demo_footage "clip.mov")))) ∧
       ((d = demo_oiio ∧
         fst (Probe demo_oiio (demo_Clear (demo_footage "clip.mov"))) = true) ∨
        (d = demo_ffmpeg ∧
         fst (Probe demo_oiio (demo_Clear (demo_footage "clip.mov"))) = false ∧
         fst (Probe demo_ffmpeg
                (snd (Probe demo_oiio (demo_Clear (demo_footage "clip.mov"))))) = true)).
Proof.
  apply (ProbeMedia_CreateFromID demo_exists demo_Clear demo_oiio demo_ffmpeg
           (demo_footage "clip.mov")).
  - discriminate.
  - reflexivity.
  - reflexivity.
  - reflexivity.
Defined.

Lemma CreateFromID_spec_witness :
  CreateFromID demo_oiio demo_ffmpeg "ffmpeg" = Some demo_ffmpeg ∧
  CreateFromID demo_oiio demo_ffmpeg "vlc" = None.
Proof.
  destruct (CreateFromID_spec demo_oiio demo_ffmpeg "vlc") as [_ Hnone].
  split; [reflexivity|]. apply Hnone. right.
  intros d Hd. repeat (apply elem_of_cons in Hd as [->|Hd]; [cbn; discriminate|]).
  by apply elem_of_nil in Hd.
Defined.

Lemma ProbeMedia_result_witness :
  status_ (snd (ProbeMedia demo_exists demo_Clear demo_oiio demo_ffmpeg
                  (demo_footage "still.png"))) = kReady.
Proof.
  destruct (ProbeMedia_result demo_exists demo_Clear demo_oiio demo_ffmpeg
              (demo_footage "still.png")) as [Htrue _].
  apply Htrue. reflexivity.
Defined.

(** ** Display names *)

(** X18.  A non-empty name given with [set_name] is what [name] returns;
    setting the empty name brings back the label of the data type; and
    when translation keeps non-empty strings non-empty, [name] is never
    empty. *)
Theorem name_spec (tr : string → string) (p : NodeParam) (data_type : DataType) (n : string) :
  (isEmpty n = false → name tr (set_name n p) data_type = n) ∧
  name tr (set_name EmptyString p) data_type = GetDefaultDataTypeName tr data_type ∧
  ((∀ s, isEmpty s = false → isEmpty (tr s) = false) →
   isEmpty (name tr p data_type) = false).
Proof.
  split; [|split].
  - intros Hn. unfold name, set_name; cbn. by rewrite Hn.
  - done.
  - intros Htr. unfold name. destruct (isEmpty (name_ p)) eqn:Hp; [|done].
    destruct data_type; apply Htr; reflexivity.
Qed.

Lemma name_spec_witness :
  name (λ s, s) (set_name "Opacity" (demo_param 1)) kFloat = "Opacity"%string ∧
  isEmpty (name (λ s, s) (demo_param 1) kFloat) = false.
Proof.
  destruct (name_spec (λ s, s) (demo_param 1) kFloat "Opacity") as (Hset & _ & Hne).
  split; [by apply Hset|]. by apply Hne.
Defined.

(** ** Width of encoded values *)

(** X19.  [ValueToBytesInternal] resizes its result to the size of the
    C++ type; when it does, the length of [ValueToBytes] depends on the
    data type alone, not on the value, and, sizes being positive, the
    result is empty exactly for None, Texture, Block, Track and Any. *)
Theorem ValueToBytes_fixed_width
    (QVariant : Type) (ValueToBytesInternal : CppType → QVariant → list Byte.byte)
    (sizeof : CppType → nat) (type : DataType) (v1 v2 : QVariant) :
  (∀ T v, length (ValueToBytesInternal T v) = sizeof T) →
  (∀ T, 0 < sizeof T) →
  length (ValueToBytes QVariant ValueToBytesInternal type v1) =
    length (ValueToBytes QVariant ValueToBytesInternal type v2) ∧
  (ValueToBytes QVariant ValueToBytesInternal type v1 = [] ↔
     type ∈ [kNone; kTexture; kBlock; kTrack; kAny]).
Proof.
  intros Hlen Hpos.
  assert (∀ T v, ValueToBytesInternal T v ≠ []) as Hne.
  { intros T v Hnil. pose proof (Hlen T v) as Hl. pose proof (Hpos T).
    rewrite Hnil in Hl. cbn in Hl. lia. }
  split.
  - destruct type; cbn; by rewrite ?Hlen.
  - destruct type; cbn; split; intros H; try done;
      try (by apply Hne in H);
      try (repeat (apply elem_of_cons in H as [H|H]; [discriminate|]);
           by apply elem_of_nil in H);
      set_solver.
Qed.

Lemma ValueToBytes_fixed_width_witness :
  length (ValueToBytes nat (λ T v, replicate 4 Byte.x00) kInt 1) =
    length (ValueToBytes nat (λ T v, replicate 4 Byte.x00) kInt 2) ∧
  (ValueToBytes nat (λ T v, replicate 4 Byte.x00) kInt 1 = [] ↔
     kInt ∈ [kNone; kTexture; kBlock; kTrack; kAny]).
Proof.
  apply (ValueToBytes_fixed_width nat (λ T v, replicate 4 Byte.x00) (λ _, 4)).
  - reflexivity.
  - intros T. lia.
Defined.

(** ** The effect of the two operations on the edge lists *)

(** X20.  [DisconnectEdge] takes the edge, wherever it occurs, out of the
    lists of its own output and input and keeps the order of the other
    edges there; no other list changes, and no edge object or node. *)
Theorem DisconnectEdge_effect h edge ed po pi :
  edge_objs h !! edge = Some ed →
  outputs h !! edge_output ed = Some po →
  inputs h !! edge_input ed = Some pi →
  ∃ h',
    DisconnectEdge edge h = Some (tt, h') ∧
    (∀ i, edges_of_input h' i =
            if decide (i = edge_input ed)
            then filter (λ e, e ≠ edge) (edges_of_input h i)
            else edges_of_input h i) ∧
    (∀ o, edges_of_output h' o =
            if decide (o = edge_output ed)
            then filter (λ e, e ≠ edge) (edges_of_output h o)
            else edges_of_output h o) ∧
    edge_objs h' = edge_objs h ∧ nodes h' = nodes h.
Proof.
  intros Hed Hpo Hpi. exists (disconnected edge ed po pi h).
  split; [by apply DisconnectEdge_run|]. split; [|split; [|done]].
  - intros i. by apply edges_of_input_disconnected.
  - intros o. by apply edges_of_output_disconnected.
Qed.

Lemma DisconnectEdge_effect_witness :
  ∃ h',
    DisconnectEdge 4 demo_heap_edited = Some (tt, h') ∧
    (∀ i, edges_of_input h' i =
            if decide (i = 20%positive)
            then filter (λ e, e ≠ 4%positive) (edges_of_input demo_heap_edited i)
            else edges_of_input demo_heap_edited i) ∧
    (∀ o, edges_of_output h' o =
            if decide (o = 10%positive)
            then filter (λ e, e ≠ 4%positive) (edges_of_output demo_heap_edited o)
            else edges_of_output demo_heap_edited o) ∧
    edge_objs h' = edge_objs demo_heap_edited ∧ nodes h' = nodes demo_heap_edited.
Proof.
  apply (DisconnectEdge_effect demo_heap_edited 4 (mkEdge 10 20)
           (mkOutput (set_edges [4%positive] (demo_param 1)) kFloat)
           (mkInput (set_time (-1) (set_edges [4%positive] (demo_param 2)))
              [kInt; kFloat]));
    vm_compute; reflexivity.
Defined.

Lemma filter_not_in_nil (l : list positive) :
  filter (λ e, e ∉ ([] : list positive)) l = l.
Proof.
  induction l as [|x l IH]; [done|].
  rewrite filter_cons_True by apply not_elem_of_nil. by rewrite IH.
Qed.

(** X21.  On a well-formed heap a legal [ConnectEdge] makes a new edge
    object from the output to the input, which becomes the only edge of
    the input and the last edge of the output; the edge the input had
    before is taken out of its output's list; every other list is as it
    was, in the same order. *)
Theorem ConnectEdge_effect h output input po pi graph :
  wf h →
  outputs h !! output = Some po →
  inputs h !! input = Some pi →
  can_accept_type pi (data_type_ po) = true →
  nodes h !! parent_ (out_param po) = Some graph →
  nodes h !! parent_ (in_param pi) = Some graph →
  ∃ edge h',
    ConnectEdge output input h = Some (Some edge, h') ∧
    edge_objs h !! edge = None ∧
    edge_objs h' = <[edge := mkEdge output input]> (edge_objs h) ∧
    (∀ i, edges_of_input h' i =
            if decide (i = input) then [edge] else edges_of_input h i) ∧
    (∀ o, edges_of_output h' o =
            filter (λ e, e ∉ edges_ (in_param pi)) (edges_of_output h o) ++
            (if decide (o = output) then [edge] else [])).
Proof.
  intros Hwf Hpo Hpi Hacc Hog Hig.
  destruct (DisconnectForNewOutput_wf_objects h output input po pi Hwf Hpo Hpi)
    as (r1 & h1 & po1 & pi1 & Hdfno & Hpo1 & Hpi1 & Hnil & Hdt & Hpo_par & Hins
        & Hpi_par & Hnodes & Hobjs & Hsame & Hfirst).
  assert (has_edge_from (edges_ (in_param pi1)) output h1 = Some (false, h1)) as Hscan.
  { by rewrite Hnil. }
  pose proof (ConnectEdge_run h output input r1 h1 pi1 po1 Hdfno Hpi1 Hscan Hpo1) as Hrun.
  unfold can_accept_type in Hrun, Hacc. rewrite Hins, Hdt, Hacc in Hrun.
  rewrite Hpo_par, Hpi_par, Hnodes, Hog, Hig in Hrun.
  rewrite decide_True in Hrun by done. cbn zeta in Hrun.
  set (edge := fresh (dom (edge_objs h1))) in *.
  assert (edge_objs h !! edge = None) as Hfresh.
  { rewrite <- Hobjs. apply fresh_edge_None. }
  assert ((∀ i, i ≠ input → edges_of_input h1 i = edges_of_input h i) ∧
          (∀ o, edges_of_output h1 o =
                  filter (λ e, e ∉ edges_ (in_param pi)) (edges_of_output h o)))
    as [Hins1 Houts1].
  { destruct (edges_ (in_param pi)) as [|e0 rest] eqn:Hes.
    - rewrite (Hsame eq_refl). split; [done|]. intros o.
      by rewrite filter_not_in_nil.
    - destruct (Hfirst e0) as (ed0 & po0 & Hed0 & Hin0 & Hpo0 & ->);
        [apply list_elem_of_here|].
      assert (rest = []) as ->.
      { pose proof (wf_single h Hwf input) as Hlen. unfold edges_of_input in Hlen.
        rewrite Hpi in Hlen. cbn in Hlen. rewrite Hes in Hlen.
        destruct rest; [done|cbn in Hlen; lia]. }
      rewrite <- Hin0 in Hpi. split.
      + intros i Hne. rewrite edges_of_input_disconnected by done.
        rewrite Hin0. by rewrite decide_False.
      + intros o. rewrite edges_of_output_disconnected by done.
        assert (∀ l : list positive,
                  filter (λ e, e ∉ [e0]) l = filter (λ e, e ≠ e0) l) as Hfilter.
        { intros l. apply list_filter_iff. intros x.
          by rewrite list_elem_of_singleton. }
        rewrite Hfilter. case_decide as Ho; [done|].
        symmetry. apply filter_ne_absent. intros Hin.
        destruct (wf_out_edges h Hwf o e0 Hin) as (ed0' & Hed0' & Ho').
        congruence. }
  exists edge, (connected edge output input po1 pi1 h1).
  split; [done|]. split; [done|]. split; [|split].
  - cbn. by rewrite Hobjs.
  - intros i. rewrite edges_of_input_connected by done.
    case_decide as Hi; [|by apply Hins1]. subst i.
    unfold edges_of_input. rewrite Hpi1. cbn. by rewrite Hnil.
  - intros o. rewrite edges_of_output_connected by done.
    rewrite Houts1. case_decide; [done|]. by rewrite app_nil_r.
Qed.

Lemma ConnectEdge_effect_witness :
  ∃ edge h',
    ConnectEdge 13 20 demo_heap_connected = Some (Some edge, h') ∧
    edge_objs demo_heap_connected !! edge = None ∧
    edge_objs h' = <[edge := mkEdge 13 20]> (edge_objs demo_heap_connected) ∧
    (∀ i, edges_of_input h' i =
            if decide (i = 20%positive) then [edge]
            else edges_of_input demo_heap_connected i) ∧
    (∀ o, edges_of_output h' o =
            filter (λ e, e ∉ edges_ (in_param
               (mkInput (set_edges [1%positive] (demo_param 2)) [kInt; kFloat])))
              (edges_of_output demo_heap_connected o) ++
            (if decide (o = 13%positive) then [edge] else [])).
Proof.
  apply (ConnectEdge_effect demo_heap_connected 13 20
           (mkOutput (demo_param 1) kInt)
           (mkInput (set_edges [1%positive] (demo_param 2)) [kInt; kFloat]) 100).
  - apply demo_heap_connected_wf.
  - reflexivity.
  - reflexivity.
  - reflexivity.
  - reflexivity.
  - reflexivity.
Defined.
